(** * Session manager and remote data cache of the movie-discovery client

    A shallow embedding of [store/auth-store.ts] (token minting and validation,
    [login], [register], [logout], [checkAuth]) and of [lib/api.ts], both of
    the React Native client ([searchMovies] and [getMovieDetails] over
    [AsyncStorage]) and of the web client ([searchMovies] over [fetch]),
    together with the parts of the JavaScript platform these functions call:
    UTF-16 strings, [btoa]/[atob], [JSON.stringify]/[JSON.parse], number
    coercion and [Date].

    Conventions.
    - A JavaScript string is the list of its UTF-16 code units.
    - A JavaScript number is an exact decimal [m * 10^e], or [NaN], or an
      infinity; the rounding of IEEE doubles is not represented.
    - An operation that can throw returns a [completion].
    - [Date.now()] is an explicit argument [now], in epoch milliseconds.
    - Mutable module state ([MOCK_USERS], the zustand store, [AsyncStorage])
      is threaded through explicitly. *)

From Stdlib Require Import ZArith NArith List String Ascii Bool Lia.
From Stdlib Require Import Decimal DecimalFacts DecimalPos DecimalN DecimalZ.
From stdpp Require Import base option list gmap.

Local Open Scope N_scope.

(** ** Strings *)

Abbreviation jsstring := (list N).

(** The code units of an ASCII (or Latin-1) literal. *)
Definition js (s : string) : jsstring :=
  List.map N_of_ascii (list_ascii_of_string s).

(** ** Errors and completions *)

Inductive error : Type :=
| InvalidCharacterError
| SyntaxError
| TypeError
| Error (message : jsstring).

Inductive completion (A : Type) : Type :=
| Normal (a : A)
| Throw (e : error).
Arguments Normal {A} a.
Arguments Throw {A} e.

Definition bind {A B : Type} (c : completion A) (k : A -> completion B) : completion B :=
  match c with
  | Normal a => k a
  | Throw e => Throw e
  end.

Notation "x <- c ;; k" := (bind c (fun x => k))
  (at level 100, c at next level, right associativity).

(** ** Base64: [btoa] and [atob] *)

Module Base64.

(** The character of a 6-bit value in the alphabet [A-Za-z0-9+/]. *)
Definition encode_sextet (n : N) : N :=
  if n <? 26 then 65 + n
  else if n <? 52 then 97 + (n - 26)
  else if n <? 62 then 48 + (n - 52)
  else if n =? 62 then 43
  else 47.

Definition decode_char (c : N) : option N :=
  if (65 <=? c) && (c <=? 90) then Some (c - 65)
  else if (97 <=? c) && (c <=? 122) then Some (c - 97 + 26)
  else if (48 <=? c) && (c <=? 57) then Some (c - 48 + 52)
  else if c =? 43 then Some 62
  else if c =? 47 then Some 63
  else None.

(** Three bytes give four characters; a final group of one or two bytes is
    padded with [=] (code unit 61). *)
Fixpoint encode (bytes : list N) : jsstring :=
  match bytes with
  | a :: b :: c :: rest =>
      encode_sextet (a / 4)
      :: encode_sextet ((a mod 4) * 16 + b / 16)
      :: encode_sextet ((b mod 16) * 4 + c / 64)
      :: encode_sextet (c mod 64)
      :: encode rest
  | [a; b] =>
      [encode_sextet (a / 4);
       encode_sextet ((a mod 4) * 16 + b / 16);
       encode_sextet ((b mod 16) * 4);
       61]
  | [a] =>
      [encode_sextet (a / 4); encode_sextet ((a mod 4) * 16); 61; 61]
  | [] => []
  end.

(** [btoa(s)]: throws InvalidCharacterError when [s] holds a code unit above
    U+00FF. *)
Definition btoa (s : jsstring) : completion jsstring :=
  if forallb (fun c => c <=? 255) s then Normal (encode s)
  else Throw InvalidCharacterError.

Definition is_ascii_whitespace (c : N) : bool :=
  (c =? 9) || (c =? 10) || (c =? 12) || (c =? 13) || (c =? 32).

(** When the length is a multiple of four, one or two trailing [=] go. *)
Definition strip_padding (s : jsstring) : jsstring :=
  if (length s mod 4 =? 0)%nat then
    match rev s with
    | c1 :: r1 =>
        if c1 =? 61 then
          match r1 with
          | c2 :: r2 => if c2 =? 61 then rev r2 else rev r1
          | [] => rev r1
          end
        else s
    | [] => s
    end
  else s.

Fixpoint decode_all (s : jsstring) : option (list N) :=
  match s with
  | [] => Some []
  | c :: r =>
      match decode_char c, decode_all r with
      | Some v, Some vs => Some (v :: vs)
      | _, _ => None
      end
  end.

(** Four 6-bit values give three bytes; of a final group of two or three
    values the low 4 or 2 bits are dropped. *)
Fixpoint decode_groups (v : list N) : list N :=
  match v with
  | a :: b :: c :: d :: rest =>
      (a * 4 + b / 16)
      :: ((b mod 16) * 16 + c / 4)
      :: ((c mod 4) * 64 + d)
      :: decode_groups rest
  | [a; b; c] => [a * 4 + b / 16; (b mod 16) * 16 + c / 4]
  | [a; b] => [a * 4 + b / 16]
  | _ => []
  end.

(** [atob(s)], the forgiving-base64 decode: throws InvalidCharacterError on
    a length of 1 modulo 4 or on a character outside the alphabet. *)
Definition atob (s : jsstring) : completion jsstring :=
  let d := strip_padding (List.filter (fun c => negb (is_ascii_whitespace c)) s) in
  if (length d mod 4 =? 1)%nat then Throw InvalidCharacterError
  else match decode_all d with
       | Some v => Normal (decode_groups v)
       | None => Throw InvalidCharacterError
       end.

End Base64.

(** ** Numbers *)

(** [Dec m e] is the finite number [m * 10^e]. *)
Inductive number : Type :=
| NaN
| Infinity (negative : bool)
| Dec (m e : Z).

Module Number.

Definition is_digit (c : N) : bool := (48 <=? c) && (c <=? 57).

Definition digit_of_char (c : N) : option (uint -> uint) :=
  match c with
  | 48 => Some D0 | 49 => Some D1 | 50 => Some D2 | 51 => Some D3
  | 52 => Some D4 | 53 => Some D5 | 54 => Some D6 | 55 => Some D7
  | 56 => Some D8 | 57 => Some D9
  | _ => None
  end.

Fixpoint uint_of_digits (s : jsstring) : option uint :=
  match s with
  | [] => Some Nil
  | c :: r =>
      match digit_of_char c, uint_of_digits r with
      | Some d, Some u => Some (d u)
      | _, _ => None
      end
  end.

Fixpoint digits_of_uint (u : uint) : jsstring :=
  match u with
  | Nil => []
  | D0 u => 48 :: digits_of_uint u
  | D1 u => 49 :: digits_of_uint u
  | D2 u => 50 :: digits_of_uint u
  | D3 u => 51 :: digits_of_uint u
  | D4 u => 52 :: digits_of_uint u
  | D5 u => 53 :: digits_of_uint u
  | D6 u => 54 :: digits_of_uint u
  | D7 u => 55 :: digits_of_uint u
  | D8 u => 56 :: digits_of_uint u
  | D9 u => 57 :: digits_of_uint u
  end.

(** The value of a run of decimal digits. *)
Definition digits_value (ds : jsstring) : Z :=
  match uint_of_digits ds with
  | Some u => Z.of_uint u
  | None => 0
  end.

(** The longest prefix of decimal digits, and what follows it. *)
Fixpoint span_digits (s : jsstring) : jsstring * jsstring :=
  match s with
  | c :: r =>
      if is_digit c then let '(d, r') := span_digits r in (c :: d, r')
      else ([], s)
  | [] => ([], [])
  end.

(** [Number::toString] of an integer (below 10^21 in magnitude, where
    JavaScript prints plain digits). *)
Definition toString (z : Z) : jsstring :=
  match Z.to_int z with
  | Pos u => digits_of_uint u
  | Neg u => 45 :: digits_of_uint u
  end.

Definition decimal (negative : bool) (ip fp : jsstring) (e : Z) : number :=
  let m := digits_value (ip ++ fp) in
  Dec (if negative then (- m)%Z else m) (e - Z.of_nat (length fp))%Z.

(** An optional exponent part [(e|E)(+|-)?digits] that ends the literal. *)
Definition exponent_part (s : jsstring) : option Z :=
  match s with
  | [] => Some 0%Z
  | c :: r =>
      if (c =? 101) || (c =? 69) then
        let '(neg, r1) :=
          match r with
          | 45 :: r' => (true, r')
          | 43 :: r' => (false, r')
          | _ => (false, r)
          end in
        let '(ds, r2) := span_digits r1 in
        match ds, r2 with
        | _ :: _, [] => Some (if neg then (- digits_value ds)%Z else digits_value ds)
        | _, _ => None
        end
      else None
  end.

(** A JSON number literal: an optional minus sign, an integer part without
    superfluous leading zero, an optional fraction with at least one digit,
    an optional exponent. *)
Definition of_json_literal (s : jsstring) : option number :=
  let '(neg, s1) := match s with 45 :: r => (true, r) | _ => (false, s) end in
  let '(ip, s2) := span_digits s1 in
  match ip with
  | [] => None
  | 48 :: _ :: _ => None
  | _ =>
      let '(fp, s3) :=
        match s2 with
        | 46 :: r => let '(f, r') := span_digits r in (Some f, r')
        | _ => (None, s2)
        end in
      match fp with
      | Some [] => None
      | _ =>
          match exponent_part s3 with
          | Some e => Some (decimal neg ip (default [] fp) e)
          | None => None
          end
      end
  end.

(** White space and line terminators of ECMAScript, as trimmed by the
    conversion of a string to a number. *)
Definition is_whitespace (c : N) : bool :=
  ((9 <=? c) && (c <=? 13)) || (c =? 32) || (c =? 160) || (c =? 5760)
  || ((8192 <=? c) && (c <=? 8202)) || (c =? 8232) || (c =? 8233)
  || (c =? 8239) || (c =? 8287) || (c =? 12288) || (c =? 65279).

Fixpoint drop_whitespace (s : jsstring) : jsstring :=
  match s with
  | c :: r => if is_whitespace c then drop_whitespace r else s
  | [] => []
  end.

Definition trim (s : jsstring) : jsstring :=
  rev (drop_whitespace (rev (drop_whitespace s))).

Definition radix_digit (c : N) : option Z :=
  if is_digit c then Some (Z.of_N (c - 48))
  else if (97 <=? c) && (c <=? 102) then Some (Z.of_N (c - 87))
  else if (65 <=? c) && (c <=? 70) then Some (Z.of_N (c - 55))
  else None.

Fixpoint radix_value (radix : Z) (acc : Z) (s : jsstring) : option Z :=
  match s with
  | [] => Some acc
  | c :: r =>
      match radix_digit c with
      | Some d => if (d <? radix)%Z then radix_value radix (radix * acc + d)%Z r else None
      | None => None
      end
  end.

Definition of_radix_literal (radix : Z) (s : jsstring) : number :=
  match s with
  | [] => NaN
  | _ => match radix_value radix 0 s with Some z => Dec z 0 | None => NaN end
  end.

(** [StrDecimalLiteral]: an optional sign, then [Infinity] or
    [digits(.digits?)?exp?] or [.digits exp?]. *)
Definition of_decimal_literal (s : jsstring) : number :=
  let '(neg, s1) :=
    match s with
    | 45 :: r => (true, r)
    | 43 :: r => (false, r)
    | _ => (false, s)
    end in
  if decide (s1 = js "Infinity") then Infinity neg
  else
    let '(ip, s2) := span_digits s1 in
    let '(fp, s3) :=
      match s2 with
      | 46 :: r => span_digits r
      | _ => ([], s2)
      end in
    match ip, fp with
    | [], [] => NaN
    | _, _ =>
        match exponent_part s3 with
        | Some e => decimal neg ip fp e
        | None => NaN
        end
    end.

(** [StringToNumber]: the number a string converts to. *)
Definition of_string (s : jsstring) : number :=
  match trim s with
  | [] => Dec 0 0
  | 48 :: c :: r =>
      if (c =? 120) || (c =? 88) then of_radix_literal 16 r
      else if (c =? 111) || (c =? 79) then of_radix_literal 8 r
      else if (c =? 98) || (c =? 66) then of_radix_literal 2 r
      else of_decimal_literal (48 :: c :: r)
  | t => of_decimal_literal t
  end.

(** Multiplication by the numeric literal [1000]. *)
Definition times_1000 (x : number) : number :=
  match x with
  | NaN => NaN
  | Infinity neg => Infinity neg
  | Dec m e => Dec m (e + 3)
  end.

End Number.

(** ** JSON *)

Module JSON.

#[warnings="-register-all"]
Inductive value : Type :=
| Null
| Bool (b : bool)
| Num (n : number)
| Str (s : jsstring)
| Arr (elements : list value)
| Obj (members : list (jsstring * value)).

(** *** [JSON.stringify] *)

Definition hex_digit (n : N) : N :=
  if n <? 10 then 48 + n else 97 + (n - 10).

(** [\uXXXX] with lower-case hexadecimal digits. *)
Definition unicode_escape (c : N) : jsstring :=
  [92; 117; hex_digit (c / 4096 mod 16); hex_digit (c / 256 mod 16);
   hex_digit (c / 16 mod 16); hex_digit (c mod 16)].

Definition is_high_surrogate (c : N) : bool := (55296 <=? c) && (c <=? 56319).
Definition is_low_surrogate (c : N) : bool := (56320 <=? c) && (c <=? 57343).

(** One code unit that is not the first half of a surrogate pair. *)
Definition escape_unit (c : N) : jsstring :=
  if c =? 8 then [92; 98]
  else if c =? 9 then [92; 116]
  else if c =? 10 then [92; 110]
  else if c =? 12 then [92; 102]
  else if c =? 13 then [92; 114]
  else if c =? 34 then [92; 34]
  else if c =? 92 then [92; 92]
  else if (c <? 32) || is_high_surrogate c || is_low_surrogate c then unicode_escape c
  else [c].

(** A surrogate pair is copied; a lone surrogate is escaped. *)
Fixpoint quote_units (s : jsstring) : jsstring :=
  match s with
  | [] => []
  | c :: r =>
      if is_high_surrogate c then
        match r with
        | d :: r' =>
            if is_low_surrogate d then c :: d :: quote_units r'
            else unicode_escape c ++ quote_units r
        | [] => unicode_escape c
        end
      else escape_unit c ++ quote_units r
  end.

Definition quote (s : jsstring) : jsstring := 34 :: quote_units s ++ [34].

(** The property values the store serialises: strings and integers. *)
Inductive field : Type :=
| FStr (s : jsstring)
| FNum (z : Z).

Definition stringify_field (f : field) : jsstring :=
  match f with
  | FStr s => quote s
  | FNum z => Number.toString z
  end.

Fixpoint stringify_members (ms : list (jsstring * field)) : jsstring :=
  match ms with
  | [] => []
  | [(k, f)] => quote k ++ 58 :: stringify_field f
  | (k, f) :: rest => quote k ++ 58 :: stringify_field f ++ 44 :: stringify_members rest
  end.

(** [JSON.stringify] of an object literal whose properties are strings and
    integers, in the order they are written. *)
Definition stringify (ms : list (jsstring * field)) : jsstring :=
  123 :: stringify_members ms ++ [125].

Definition value_of_field (f : field) : value :=
  match f with
  | FStr s => Str s
  | FNum z => Num (Dec z 0)
  end.

(** *** [JSON.parse]

    A pushdown automaton that reads the text one code unit at a time. *)

(** What to do with the value being read once it is complete. *)
Inductive cont : Type :=
| KArr (elems : list value)
| KObj (members : list (jsstring * value)) (key : jsstring).

(** Where the parser stands between two tokens; element and member lists
    are kept in reverse. *)
Inductive pos : Type :=
| PValue
| PArrStart
| PObjStart
| PKey (members : list (jsstring * value))
| PColon (members : list (jsstring * value)) (key : jsstring)
| PAfterElem (elems : list value)
| PAfterMember (members : list (jsstring * value))
| PDone (v : value).

(** What the lexer is in the middle of; accumulated text is kept in reverse. *)
Inductive mode : Type :=
| Idle
| InString (acc : jsstring)
| InEscape (acc : jsstring)
| InUnicode (acc : jsstring) (n : nat) (v : N)
| InNumber (acc : jsstring)
| InLiteral (rest : jsstring) (v : value).

Record state : Type := State { st_mode : mode; st_pos : pos; st_stack : list cont }.

Definition is_json_whitespace (c : N) : bool :=
  (c =? 32) || (c =? 9) || (c =? 10) || (c =? 13).

Definition is_number_char (c : N) : bool :=
  Number.is_digit c || (c =? 45) || (c =? 43) || (c =? 46) || (c =? 101) || (c =? 69).

Definition hex_value (c : N) : option N :=
  if Number.is_digit c then Some (c - 48)
  else if (97 <=? c) && (c <=? 102) then Some (c - 87)
  else if (65 <=? c) && (c <=? 70) then Some (c - 55)
  else None.

(** A value may start here; the first element of an array opens its frame. *)
Definition begin_value (p : pos) (stack : list cont) : option (list cont) :=
  match p with
  | PValue => Some stack
  | PArrStart => Some (KArr [] :: stack)
  | _ => None
  end.

(** A value is complete: hand it to the innermost frame. *)
Definition finish_value (v : value) (stack : list cont) : state :=
  match stack with
  | [] => State Idle (PDone v) []
  | KArr es :: st => State Idle (PAfterElem (v :: es)) st
  | KObj ms k :: st => State Idle (PAfterMember ((k, v) :: ms)) st
  end.

(** A string is complete: a property name or a value. *)
Definition finish_string (s : jsstring) (p : pos) (stack : list cont) : option state :=
  match p with
  | PObjStart => Some (State Idle (PColon [] s) stack)
  | PKey ms => Some (State Idle (PColon ms s) stack)
  | PValue => Some (finish_value (Str s) stack)
  | _ => None
  end.

Definition idle_step (p : pos) (stack : list cont) (c : N) : option state :=
  if is_json_whitespace c then Some (State Idle p stack)
  else if c =? 34 then
    match p with
    | PObjStart | PKey _ => Some (State (InString []) p stack)
    | _ => option_map (State (InString []) PValue) (begin_value p stack)
    end
  else if c =? 91 then option_map (State Idle PArrStart) (begin_value p stack)
  else if c =? 123 then option_map (State Idle PObjStart) (begin_value p stack)
  else if c =? 93 then
    match p with
    | PArrStart => Some (finish_value (Arr []) stack)
    | PAfterElem es => Some (finish_value (Arr (rev es)) stack)
    | _ => None
    end
  else if c =? 125 then
    match p with
    | PObjStart => Some (finish_value (Obj []) stack)
    | PAfterMember ms => Some (finish_value (Obj (rev ms)) stack)
    | _ => None
    end
  else if c =? 44 then
    match p with
    | PAfterElem es => Some (State Idle PValue (KArr es :: stack))
    | PAfterMember ms => Some (State Idle (PKey ms) stack)
    | _ => None
    end
  else if c =? 58 then
    match p with
    | PColon ms k => Some (State Idle PValue (KObj ms k :: stack))
    | _ => None
    end
  else if c =? 116 then
    option_map (State (InLiteral (js "rue") (Bool true)) PValue) (begin_value p stack)
  else if c =? 102 then
    option_map (State (InLiteral (js "alse") (Bool false)) PValue) (begin_value p stack)
  else if c =? 110 then
    option_map (State (InLiteral (js "ull") Null) PValue) (begin_value p stack)
  else if Number.is_digit c || (c =? 45) then
    option_map (State (InNumber [c]) PValue) (begin_value p stack)
  else None.

Definition step (st : state) (c : N) : option state :=
  let p := st_pos st in
  let stack := st_stack st in
  match st_mode st with
  | Idle => idle_step p stack c
  | InString acc =>
      if c =? 34 then finish_string (rev acc) p stack
      else if c =? 92 then Some (State (InEscape acc) p stack)
      else if c <? 32 then None
      else Some (State (InString (c :: acc)) p stack)
  | InEscape acc =>
      if c =? 34 then Some (State (InString (34 :: acc)) p stack)
      else if c =? 92 then Some (State (InString (92 :: acc)) p stack)
      else if c =? 47 then Some (State (InString (47 :: acc)) p stack)
      else if c =? 98 then Some (State (InString (8 :: acc)) p stack)
      else if c =? 102 then Some (State (InString (12 :: acc)) p stack)
      else if c =? 110 then Some (State (InString (10 :: acc)) p stack)
      else if c =? 114 then Some (State (InString (13 :: acc)) p stack)
      else if c =? 116 then Some (State (InString (9 :: acc)) p stack)
      else if c =? 117 then Some (State (InUnicode acc 0 0) p stack)
      else None
  | InUnicode acc n v =>
      match hex_value c with
      | Some d =>
          let v' := v * 16 + d in
          if (n =? 3)%nat then Some (State (InString (v' :: acc)) p stack)
          else Some (State (InUnicode acc (S n) v') p stack)
      | None => None
      end
  | InNumber acc =>
      if is_number_char c then Some (State (InNumber (c :: acc)) p stack)
      else
        match Number.of_json_literal (rev acc) with
        | Some n =>
            let st' := finish_value (Num n) stack in
            idle_step (st_pos st') (st_stack st') c
        | None => None
        end
  | InLiteral rest v =>
      match rest with
      | x :: rest' =>
          if c =? x then
            match rest' with
            | [] => Some (finish_value v stack)
            | _ => Some (State (InLiteral rest' v) p stack)
            end
          else None
      | [] => None
      end
  end.

Fixpoint run (st : state) (s : jsstring) : option state :=
  match s with
  | [] => Some st
  | c :: r =>
      match step st c with
      | Some st' => run st' r
      | None => None
      end
  end.

(** At the end of the text a pending number is closed, and exactly one
    value must have been read. *)
Definition finish (st : state) : option value :=
  match st_mode st with
  | Idle =>
      match st_pos st with
      | PDone v => Some v
      | _ => None
      end
  | InNumber acc =>
      match Number.of_json_literal (rev acc), st_stack st with
      | Some n, [] => Some (Num n)
      | _, _ => None
      end
  | _ => None
  end.

Definition initial : state := State Idle PValue [].

(** [JSON.parse(text)]: throws SyntaxError on text that is not JSON. *)
Definition parse (text : jsstring) : completion value :=
  match run initial text with
  | Some st =>
      match finish st with
      | Some v => Normal v
      | None => Throw SyntaxError
      end
  | None => Throw SyntaxError
  end.

(** The own property [key] of an object; a name written twice keeps its
    last value. *)
Fixpoint own_property (key : jsstring) (ms : list (jsstring * value)) : option value :=
  match ms with
  | [] => None
  | (k, v) :: rest =>
      match own_property key rest with
      | Some v' => Some v'
      | None => if decide (k = key) then Some v else None
      end
  end.

End JSON.

(** ** Coercions and dates *)

(** [ToNumber] of a value read by [JSON.parse]. An array converts through its
    string form: the empty array is the empty string, a one-element array is
    the string of its element ([null] giving the empty string), and a longer
    array holds a comma, which no numeric string does. *)
Fixpoint ToNumber (v : JSON.value) : number :=
  match v with
  | JSON.Null => Dec 0 0
  | JSON.Bool b => if b then Dec 1 0 else Dec 0 0
  | JSON.Num n => n
  | JSON.Str s => Number.of_string s
  | JSON.Arr [] => Dec 0 0
  | JSON.Arr [x] =>
      match x with
      | JSON.Null => Dec 0 0
      | JSON.Bool _ => NaN
      | JSON.Num n => n
      | JSON.Str s => Number.of_string s
      | JSON.Arr _ => ToNumber x
      | JSON.Obj _ => NaN
      end
  | JSON.Arr _ => NaN
  | JSON.Obj _ => NaN
  end.

(** [payload.exp]: reading a property of [null] throws TypeError; an object
    gives its own property; every other value, and an object without the
    property, gives [undefined] ([None]). *)
Definition get_exp (payload : JSON.value) : completion (option JSON.value) :=
  match payload with
  | JSON.Null => Throw TypeError
  | JSON.Obj ms => Normal (JSON.own_property (js "exp") ms)
  | _ => Normal None
  end.

(** [x * 1000] for [x] a value or [undefined]. *)
Definition times_1000 (x : option JSON.value) : number :=
  match x with
  | Some v => Number.times_1000 (ToNumber v)
  | None => NaN
  end.

Module Date.

(** The largest time value, in milliseconds on either side of the epoch. *)
Definition max_time : Z := 8640000000000000.

(** [new Date(x)]: the time value of the date, [None] for an Invalid Date.
    A finite [x] beyond [max_time] is invalid; otherwise it is truncated
    towards zero. *)
Definition of_number (x : number) : option Z :=
  match x with
  | NaN => None
  | Infinity _ => None
  | Dec m e =>
      if (0 <=? e)%Z then
        let t := (m * 10 ^ e)%Z in
        if (Z.abs t <=? max_time)%Z then Some t else None
      else
        let d := (10 ^ (- e))%Z in
        if (Z.abs m <=? max_time * d)%Z then Some (Z.quot m d) else None
  end.

(** [a > b] on dates: false as soon as one of them is invalid. *)
Definition gt (a b : option Z) : bool :=
  match a, b with
  | Some x, Some y => (y <? x)%Z
  | _, _ => false
  end.

End Date.

(** ** Tokens *)

(** [s.split(sep)] for a one-character separator. *)
Fixpoint split (sep : N) (s : jsstring) : list jsstring :=
  match s with
  | [] => [[]]
  | c :: r =>
      if c =? sep then [] :: split sep r
      else
        match split sep r with
        | h :: t => (c :: h) :: t
        | [] => [[c]]
        end
  end.

(** The string of a template hole or built-in argument that may be
    [undefined]. *)
Definition ToString (x : option jsstring) : jsstring :=
  match x with
  | Some s => s
  | None => js "undefined"
  end.

(** The payload of a token: the user's fields and [exp], the expiry in
    seconds since the epoch, an integer. *)
Module Payload.
Record t : Type := { id : jsstring; email : jsstring; name : jsstring; exp : Z }.
End Payload.

(** [generateJWT(payload)], for the payloads [login] and [register] build. *)
Definition generateJWT (payload : Payload.t) : completion jsstring :=
  header <- Base64.btoa (JSON.stringify
              [(js "alg", JSON.FStr (js "HS256")); (js "typ", JSON.FStr (js "JWT"))]) ;;
  data <- Base64.btoa (JSON.stringify
              [(js "id", JSON.FStr (Payload.id payload));
               (js "email", JSON.FStr (Payload.email payload));
               (js "name", JSON.FStr (Payload.name payload));
               (js "exp", JSON.FNum (Payload.exp payload))]) ;;
  signature <- Base64.btoa (js "mock-signature") ;;
  Normal (header ++ 46 :: data ++ 46 :: signature).

(** The body of the [try] block of [isValidToken]. *)
Definition isValidToken_try (now : Z) (token : jsstring) : completion bool :=
  let data := nth_error (split 46 token) 1 in
  text <- Base64.atob (ToString data) ;;
  payload <- JSON.parse text ;;
  exp <- get_exp payload ;;
  let expiration := Date.of_number (times_1000 exp) in
  Normal (Date.gt expiration (Some now)).

(** [isValidToken(token)], evaluated when the clock reads [now]. *)
Definition isValidToken (now : Z) (token : jsstring) : bool :=
  match isValidToken_try now token with
  | Normal b => b
  | Throw _ => false
  end.

(** ** The auth store *)

Module User.
Record t : Type := { id : jsstring; email : jsstring; name : jsstring }.
End User.

Module Account.
Record t : Type :=
  { id : jsstring; email : jsstring; name : jsstring; password : jsstring }.
End Account.

Record AuthState : Type :=
  { user : option User.t; isAuthenticated : bool; token : option jsstring }.

Record Result : Type := { success : bool; message : jsstring }.

(** The module-level object [MOCK_USERS] and the store's state. *)
Record World : Type :=
  { MOCK_USERS : gmap jsstring Account.t; state : AuthState }.

(** The property names every object literal inherits from
    [Object.prototype]. *)
Definition Object_prototype : list jsstring :=
  List.map js
    ["constructor"; "__proto__"; "hasOwnProperty"; "isPrototypeOf";
     "propertyIsEnumerable"; "toLocaleString"; "toString"; "valueOf";
     "__defineGetter__"; "__defineSetter__"; "__lookupGetter__";
     "__lookupSetter__"]%string.

(** [MOCK_USERS[key]]: an account of its own, a member inherited from the
    prototype (truthy, and without a [password]), or [undefined]. *)
Inductive property : Type :=
| Own (a : Account.t)
| Inherited
| Undefined.

Definition get_property (users : gmap jsstring Account.t) (key : jsstring) : property :=
  match users !! key with
  | Some a => Own a
  | None => if bool_decide (key ∈ Object_prototype) then Inherited else Undefined
  end.

Definition set_session (w : World) (u : User.t) (tok : jsstring) : World :=
  {| MOCK_USERS := MOCK_USERS w;
     state := {| user := Some u; isAuthenticated := true; token := Some tok |} |}.

Section AuthStore.

(** [String.prototype.toLowerCase], whose Unicode tables are left open. *)
Variable toLowerCase : jsstring -> jsstring.

(** [login(email, password)]; [now] is the clock once the simulated delay
    has passed. *)
Definition login (now : Z) (email password : jsstring) (w : World)
  : World * completion Result :=
  match get_property (MOCK_USERS w) (toLowerCase email) with
  | Own user =>
      if decide (Account.password user = password) then
        match generateJWT
                {| Payload.id := Account.id user;
                   Payload.email := Account.email user;
                   Payload.name := Account.name user;
                   Payload.exp := (now / 1000 + 24 * 60 * 60)%Z |} with
        | Normal token =>
            (set_session w
               {| User.id := Account.id user;
                  User.email := Account.email user;
                  User.name := Account.name user |} token,
             Normal {| success := true; message := js "Login successful" |})
        | Throw e => (w, Throw e)
        end
      else (w, Normal {| success := false; message := js "Invalid email or password" |})
  | Inherited | Undefined =>
      (w, Normal {| success := false; message := js "Invalid email or password" |})
  end.

(** [register(email, name, password)]. *)
Definition register (now : Z) (email name password : jsstring) (w : World)
  : World * completion Result :=
  match get_property (MOCK_USERS w) (toLowerCase email) with
  | Own _ | Inherited =>
      (w, Normal {| success := false; message := js "User already exists" |})
  | Undefined =>
      let newUser :=
        {| Account.id := Number.toString (Z.of_nat (size (MOCK_USERS w)) + 1);
           Account.email := toLowerCase email;
           Account.name := name;
           Account.password := password |} in
      let w' :=
        {| MOCK_USERS := <[toLowerCase email := newUser]> (MOCK_USERS w);
           state := state w |} in
      match generateJWT
              {| Payload.id := Account.id newUser;
                 Payload.email := Account.email newUser;
                 Payload.name := Account.name newUser;
                 Payload.exp := (now / 1000 + 24 * 60 * 60)%Z |} with
      | Normal token =>
          (set_session w'
             {| User.id := Account.id newUser;
                User.email := Account.email newUser;
                User.name := Account.name newUser |} token,
           Normal {| success := true; message := js "Registration successful" |})
      | Throw e => (w', Throw e)
      end
  end.

End AuthStore.

Definition logout (w : World) : World :=
  {| MOCK_USERS := MOCK_USERS w;
     state := {| user := None; isAuthenticated := false; token := None |} |}.

(** [checkAuth()]: an absent or empty token is falsy. *)
Definition checkAuth (now : Z) (w : World) : bool :=
  match token (state w) with
  | Some (c :: t) => isValidToken now (c :: t)
  | Some [] => false
  | None => false
  end.

(** The store as the module creates it. *)
Definition initial_world : World :=
  {| MOCK_USERS :=
       {[ js "demo@example.com" :=
            {| Account.id := js "1";
               Account.email := js "demo@example.com";
               Account.name := js "Demo User";
               Account.password := js "demo123" |} ]};
     state := {| user := None; isAuthenticated := false; token := None |} |}.

(** A lower-casing of the ASCII letters, one instance of [toLowerCase]. *)
Definition ascii_toLowerCase (s : jsstring) : jsstring :=
  List.map (fun c => if (65 <=? c) && (c <=? 90) then c + 32 else c) s.

(** ** The API client *)

(** [x || ''] for a string that may be [undefined]: both [undefined] and
    the empty string are falsy. *)
Definition or_empty (x : option jsstring) : jsstring :=
  match x with
  | Some s => s
  | None => []
  end.

(** The query parameters of one GET to the movie API (the key apart). *)
Inductive Request : Type :=
| Search (s type y : jsstring)
| Details (i plot : jsstring).

(** The React Native client: [AsyncStorage] as a read-through cache. *)
Module Native.

Section Api.

(** The body of a response. *)
Variable Data : Type.

(** An [AsyncStorage] item written by the client: the JSON text of
    [{data, timestamp}], kept as its two properties. *)
Record CacheEntry : Type := { data : Data; timestamp : Z }.

(** The device storage, and the GETs issued so far (oldest first). *)
Record Env : Type :=
  { storage : gmap jsstring CacheEntry; requests : list Request }.

Definition search_ttl : Z := 60 * 60 * 1000.
Definition details_ttl : Z := 24 * 60 * 60 * 1000.

(** The template literal of the cache key of [searchMovies]. *)
Definition search_key (term : jsstring) (type year : option jsstring) : jsstring :=
  js "search:" ++ term ++ 58 :: ToString type ++ 58 :: ToString year.

Definition details_key (imdbID : jsstring) : jsstring :=
  js "movie:" ++ imdbID.

(** The cached payload under [key], when the entry passes
    [Date.now() - timestamp < ttl]. *)
Definition cached (ttl now : Z) (key : jsstring) (env : Env) : option Data :=
  match storage env !! key with
  | Some entry =>
      if (now - timestamp entry <? ttl)%Z then Some (data entry) else None
  | None => None
  end.

(** The [try] block: one GET, then the write of its response. [net] is what
    the network answers ([Throw] for a transport error or a status outside
    2xx), [now'] the clock when the response is stored. *)
Definition fetch_and_store (net : Request -> completion Data) (now' : Z)
    (key : jsstring) (req : Request) (failure : jsstring) (env : Env)
  : Env * completion Data :=
  match net req with
  | Normal d =>
      ({| storage := <[key := {| data := d; timestamp := now' |}]> (storage env);
          requests := requests env ++ [req] |},
       Normal d)
  | Throw _ =>
      ({| storage := storage env; requests := requests env ++ [req] |},
       Throw (Error failure))
  end.

(** [searchMovies(term, type, year)]; [now] is the clock at the freshness
    test. A filter is [None] when the caller passes [undefined]. Writes to
    the storage are taken to succeed. *)
Definition searchMovies (net : Request -> completion Data) (now now' : Z)
    (term : jsstring) (type year : option jsstring) (env : Env)
  : Env * completion Data :=
  let cacheKey := search_key term type year in
  match cached search_ttl now cacheKey env with
  | Some d => (env, Normal d)
  | None =>
      fetch_and_store net now' cacheKey
        (Search term (or_empty type) (or_empty year))
        (js "Failed to fetch movies") env
  end.

(** [getMovieDetails(imdbID)]. *)
Definition getMovieDetails (net : Request -> completion Data) (now now' : Z)
    (imdbID : jsstring) (env : Env) : Env * completion Data :=
  let cacheKey := details_key imdbID in
  match cached details_ttl now cacheKey env with
  | Some d => (env, Normal d)
  | None =>
      fetch_and_store net now' cacheKey
        (Details imdbID (js "full"))
        (js "Failed to fetch movie details") env
  end.

End Api.

Arguments data {Data} _.
Arguments timestamp {Data} _.
Arguments storage {Data} _.
Arguments requests {Data} _.
Arguments cached {Data} ttl now key env.
Arguments fetch_and_store {Data} net now' key req failure env.
Arguments searchMovies {Data} net now now' term type year env.
Arguments getMovieDetails {Data} net now now' imdbID env.

End Native.

(** The web client: [fetch] without a cache. *)
Module Web.

Section Api.

Variable Data : Type.

(** What [fetch] settles to: a rejection, or a response with its [ok] flag
    and what [response.json()] settles to. *)
Inductive FetchResult : Type :=
| NetworkError
| Response (ok : bool) (json : completion Data).

(** [searchMovies(term, type, year)] of the web client, over the log of
    the GETs issued so far. *)
Definition searchMovies (net : Request -> FetchResult)
    (term : jsstring) (type year : option jsstring) (requests : list Request)
  : list Request * completion Data :=
  let req := Search term (or_empty type) (or_empty year) in
  (requests ++ [req],
   match net req with
   | NetworkError => Throw TypeError
   | Response false _ => Throw (Error (js "Failed to fetch movies"))
   | Response true json => json
   end).

End Api.

Arguments NetworkError {Data}.
Arguments Response {Data} ok json.
Arguments searchMovies {Data} net term type year requests.

End Web.

(** ** Notions used to state and prove the properties *)

(** The base64 alphabet. *)
Definition in_alphabet (c : N) : Prop :=
  65 <= c <= 90 \/ 97 <= c <= 122 \/ 48 <= c <= 57 \/ c = 43 \/ c = 47.

(** The 6-bit groups of a byte string and the padding that follows them:
    [Base64.encode] prints the characters of the former, then the latter. *)
Fixpoint sextets (bytes : list N) : list N :=
  match bytes with
  | a :: b :: c :: rest =>
      a / 4 :: (a mod 4) * 16 + b / 16 :: (b mod 16) * 4 + c / 64 :: c mod 64
      :: sextets rest
  | [a; b] => [a / 4; (a mod 4) * 16 + b / 16; (b mod 16) * 4]
  | [a] => [a / 4; (a mod 4) * 16]
  | [] => []
  end.

Fixpoint padding (bytes : list N) : jsstring :=
  match bytes with
  | _ :: _ :: _ :: rest => padding rest
  | [_; _] => [61]
  | [_] => [61; 61]
  | [] => []
  end.

(** The property [JSON.parse] reads back for a serialised one. *)
Definition member_value (m : jsstring * JSON.field) : jsstring * JSON.value :=
  (fst m, JSON.value_of_field (snd m)).

(** Where a property name may start: after the brace, or after a comma. *)
Definition key_pos (p : JSON.pos) (done : list (jsstring * JSON.value)) : Prop :=
  (p = JSON.PObjStart /\ done = []) \/ p = JSON.PKey done.

(** The properties of a token payload, in the order [generateJWT] is given
    them. *)
Definition payload_members (p : Payload.t) : list (jsstring * JSON.field) :=
  [(js "id", JSON.FStr (Payload.id p));
   (js "email", JSON.FStr (Payload.email p));
   (js "name", JSON.FStr (Payload.name p));
   (js "exp", JSON.FNum (Payload.exp p))].

(** The expiry date a minted token is validated against:
    [new Date(payload.exp * 1000)]. *)
Definition expiration (p : Payload.t) : option Z :=
  Date.of_number (Dec (Payload.exp p) 3).

(** The payload [login] and [register] mint a token for. *)
Definition account_payload (a : Account.t) (now : Z) : Payload.t :=
  {| Payload.id := Account.id a;
     Payload.email := Account.email a;
     Payload.name := Account.name a;
     Payload.exp := (now / 1000 + 24 * 60 * 60)%Z |}.

Definition account_user (a : Account.t) : User.t :=
  {| User.id := Account.id a;
     User.email := Account.email a;
     User.name := Account.name a |}.



(** The result every failed [login] returns. *)
Definition invalid_credentials : Result :=
  {| success := false; message := js "Invalid email or password" |}.

(** Decides the comparisons a goal tests, one at a time. *)
Ltac case_cmp :=
  repeat match goal with
  | |- context [N.leb ?a ?b] => destruct (N.leb_spec a b)
  | |- context [N.ltb ?a ?b] => destruct (N.ltb_spec a b)
  | |- context [N.eqb ?a ?b] => destruct (N.eqb_spec a b)
  end.

(** A string [btoa] accepts: every code unit is at most U+00FF. *)
Definition latin1 (s : jsstring) : Prop := Forall (fun c => c <= 255) s.

Definition latin1_member (m : jsstring * JSON.field) : Prop :=
  latin1 (fst m) /\
  match snd m with
  | JSON.FStr s => latin1 s
  | JSON.FNum _ => True
  end.

(** The store after [register("l@x.com", name, "pw")] for a name that is the
    single letter U+0141, outside Latin-1. *)
Definition world_with_non_latin1_name : World :=
  fst (register ascii_toLowerCase 1700000000123 (js "l@x.com") [321] (js "pw")
         initial_world).

(** A cache entry is fresh when [now - storedAt < ttl]. *)
Definition fresh {Data : Type} (ttl now : Z) (key : jsstring) (env : Native.Env Data) : Prop :=
  exists entry, Native.storage env !! key = Some entry /\
                (now - Native.timestamp entry < ttl)%Z.

(** The environment after a successful fetch of [d], stored when the clock
    reads [now']. *)
Definition stored {Data : Type} (key : jsstring) (d : Data) (now' : Z)
    (req : Request) (env : Native.Env Data) : Native.Env Data :=
  {| Native.storage :=
       <[key := {| Native.data := d; Native.timestamp := now' |}]> (Native.storage env);
     Native.requests := Native.requests env ++ [req] |}.

(** The environment after a failed fetch: only the log of requests grew. *)
Definition failed {Data : Type} (req : Request) (env : Native.Env Data) : Native.Env Data :=
  {| Native.storage := Native.storage env;
     Native.requests := Native.requests env ++ [req] |}.

(** The body [searchMovies] and [getMovieDetails] have in common, for a
    freshness window, a key, a request and a failure message. *)
Definition cache_or_fetch {Data : Type} (ttl : Z) (key : jsstring) (req : Request)
    (failure : jsstring) (net : Request -> completion Data) (now now' : Z)
    (env : Native.Env Data) : Native.Env Data * completion Data :=
  match Native.cached ttl now key env with
  | Some d => (env, Normal d)
  | None => Native.fetch_and_store net now' key req failure env
  end.

(** What a read-through cache does in one call: a fresh entry is served and
    nothing else happens, so no GET is issued; otherwise exactly one GET
    is issued, and a successful response is stored under the key with the
    clock of that moment and returned. *)
Definition read_through {Data : Type} (ttl : Z) (key : jsstring) (req : Request)
    (net : Request -> completion Data) (now now' : Z) (env : Native.Env Data)
    (r : Native.Env Data * completion Data) : Prop :=
  (fresh ttl now key env <-> Native.requests (fst r) = Native.requests env) /\
  (fresh ttl now key env ->
   exists entry, Native.storage env !! key = Some entry /\
                 r = (env, Normal (Native.data entry))) /\
  (~ fresh ttl now key env ->
   Native.requests (fst r) = Native.requests env ++ [req] /\
   forall d, net req = Normal d -> r = (stored key d now' req env, Normal d)).

(** Three calls in a row with the same key: the first misses and its fetch
    succeeds, the second comes within the freshness window of what the first
    stored, the third after it. The first two issue one GET between them and
    the second returns the stored response; the third issues another. *)
Definition one_fetch_per_window {Data : Type} (ttl : Z) (key : jsstring) (req : Request)
    (call : (Request -> completion Data) -> Z -> Z -> Native.Env Data ->
            Native.Env Data * completion Data) : Prop :=
  forall (net1 net2 net3 : Request -> completion Data)
         (t1 t1' t2 t2' t3 t3' : Z) (env : Native.Env Data) (d : Data),
    ~ fresh ttl t1 key env ->
    net1 req = Normal d ->
    (t2 - t1' < ttl)%Z ->
    (ttl <= t3 - t1')%Z ->
    let r1 := call net1 t1 t1' env in
    let r2 := call net2 t2 t2' (fst r1) in
    let r3 := call net3 t3 t3' (fst r2) in
    Native.requests (fst r1) = Native.requests env ++ [req] /\
    Native.requests (fst r2) = Native.requests env ++ [req] /\
    snd r2 = Normal d /\
    Native.requests (fst r3) = Native.requests env ++ [req; req].

(** [lia] reasons about the quotients and remainders of the encodings. *)
Ltac Zify.zify_post_hook ::= Z.to_euclidean_division_equations.


(** * The callers of the store and of the API client *)

(** ** Property access and truthiness of parsed values *)

(** [v.key] for a value read by [JSON.parse] and a property name that no
    prototype defines: reading a property of [null] throws TypeError; an
    object gives its own property; everything else gives [undefined]. *)
Definition get (key : jsstring) (v : JSON.value) : completion (option JSON.value) :=
  match v with
  | JSON.Null => Throw TypeError
  | JSON.Obj ms => Normal (JSON.own_property key ms)
  | _ => Normal None
  end.

(** [v?.key]: [undefined] when [v] is [undefined] or [null]. *)
Definition get_optional (key : jsstring) (v : option JSON.value)
  : completion (option JSON.value) :=
  match v with
  | None => Normal None
  | Some JSON.Null => Normal None
  | Some v' => get key v'
  end.

(** Whether a condition holds of a value: [null], [false], zero, [NaN] and
    the empty string are falsy. *)
Definition truthy (v : JSON.value) : bool :=
  match v with
  | JSON.Null => false
  | JSON.Bool b => b
  | JSON.Num NaN => false
  | JSON.Num (Infinity _) => true
  | JSON.Num (Dec m _) => negb (m =? 0)%Z
  | JSON.Str [] => false
  | JSON.Str (_ :: _) => true
  | JSON.Arr _ => true
  | JSON.Obj _ => true
  end.

(** [isValidToken(token)] for a token of any JSON type: only a string has a
    [split] method; on every other value the call [token.split(".")] throws
    TypeError inside the [try], and the result is [false]. *)
Definition isValidToken_value (now : Z) (tok : JSON.value) : bool :=
  match tok with
  | JSON.Str s => isValidToken now s
  | _ => false
  end.

(** ** [middleware.ts] *)

Module Middleware.

Inductive NextResponse : Type :=
| redirect (path : jsstring)
| next.

(** The [try] block: the cookie text is parsed and [state?.token] read. *)
Definition isAuthenticated_try (now : Z) (authStorage : jsstring) : completion bool :=
  parsedStorage <- JSON.parse authStorage ;;
  st <- get (js "state") parsedStorage ;;
  tok <- get_optional (js "token") st ;;
  Normal (match tok with
          | Some t => if truthy t then isValidToken_value now t else false
          | None => false
          end).

(** [middleware(request)], for the path of the request and the value of its
    [auth-storage] cookie, if it has one. The redirect goes to [/] on the
    origin of the request. *)
Definition middleware (now : Z) (path : jsstring) (authStorage : option jsstring)
  : NextResponse :=
  let isPublicPath :=
    bool_decide (path = js "/auth/login") || bool_decide (path = js "/auth/register") in
  if isPublicPath then
    let isAuthenticated :=
      match authStorage with
      | Some (c :: text) =>
          match isAuthenticated_try now (c :: text) with
          | Normal b => b
          | Throw _ => false
          end
      | Some [] => false
      | None => false
      end in
    if isAuthenticated then redirect (js "/") else next
  else next.

End Middleware.

(** ** [hooks/use-toast.ts] *)

Module Toast.

Record t : Type :=
  { id : Z;
    title : option jsstring;
    description : option jsstring;
    variant : jsstring }.

(** The toast that [toast({title, description, variant = "default"})]
    builds when [Date.now()] is [now]. *)
Definition make (now : Z) (title description variant : option jsstring) : t :=
  {| id := now; title := title; description := description;
     variant := match variant with Some v => v | None => js "default" end |}.

(** [toast(options)]: the toast goes to the end of the list. *)
Definition toast (now : Z) (title description variant : option jsstring)
    (toasts : list t) : list t :=
  toasts ++ [make now title description variant].

(** The timer set by the toast whose id is [i], three seconds later. *)
Definition dismiss (i : Z) (toasts : list t) : list t :=
  List.filter (fun x => negb (id x =? i)%Z) toasts.

(** What happens to the list over time: a call of [toast], or the timer
    of an earlier call firing. *)
Inductive Event : Type :=
| Raise (now : Z) (title description variant : option jsstring)
| Expire (i : Z).

Definition step (toasts : list t) (e : Event) : list t :=
  match e with
  | Raise now title description variant => toast now title description variant toasts
  | Expire i => dismiss i toasts
  end.

(** The list after a sequence of events, from the empty list the hook
    starts with. *)
Definition run (events : list Event) : list t := fold_left step events [].

End Toast.

(** ** [components/login-form.tsx] *)

Module LoginForm.

(** The state of the form, the toasts on screen, and the paths handed to
    [router.push], oldest first. *)
Record Page : Type :=
  { isLoading : bool;
    error : option jsstring;
    toasts : list Toast.t;
    pushed : list jsstring }.

Section OnSubmit.

Variable toLowerCase : jsstring -> jsstring.

(** The form while [login] is awaited. *)
Definition submitting (p : Page) : Page :=
  {| isLoading := true; error := None; toasts := toasts p; pushed := pushed p |}.

(** [onSubmit(data)]: [now] is the clock inside [login], [now'] the clock
    when a toast is raised. *)
Definition onSubmit (now now' : Z) (email password : jsstring) (w : World) (p : Page)
  : World * Page :=
  let p1 := submitting p in
  let '(w', outcome) := login toLowerCase now email password w in
  let p2 :=
    match outcome with
    | Normal result =>
        if success result then
          {| isLoading := isLoading p1; error := error p1;
             toasts := Toast.toast now' (Some (js "Login successful"))
                         (Some (js "Welcome back!")) None (toasts p1);
             pushed := pushed p1 ++ [js "/"] |}
        else
          {| isLoading := isLoading p1; error := Some (message result);
             toasts := toasts p1; pushed := pushed p1 |}
    | Throw _ =>
        {| isLoading := isLoading p1;
           error := Some (js "An unexpected error occurred. Please try again.");
           toasts := Toast.toast now' (Some (js "Login failed"))
                       (Some (js "An error occurred during login."))
                       (Some (js "destructive")) (toasts p1);
           pushed := pushed p1 |}
    end in
  (w', {| isLoading := false; error := error p2; toasts := toasts p2;
          pushed := pushed p2 |}).

End OnSubmit.

End LoginForm.

(** ** [components/movie-carousel.tsx] *)

Module Movie.
Record t : Type :=
  { Title : jsstring;
    Year : jsstring;
    imdbID : jsstring;
    Type_ : jsstring;
    Poster : option jsstring }.
End Movie.

Module MovieCarousel.

(** A response of the search endpoint: [Search] is absent when nothing was
    found. *)
Record SearchResult : Type := { Search_ : option (list Movie.t) }.

(** [movie.Poster && movie.Poster !== "N/A"]. *)
Definition has_poster (m : Movie.t) : bool :=
  match Movie.Poster m with
  | Some (c :: p) => negb (bool_decide (c :: p = js "N/A"))
  | Some [] => false
  | None => false
  end.

(** [results.flatMap(r => r.Search || []).filter(...).slice(0, 5)]. *)
Definition featured (results : list SearchResult) : list Movie.t :=
  firstn 5
    (List.filter has_poster
       (flat_map (fun r => match Search_ r with Some ms => ms | None => [] end)
          results)).

(** A slide index: an integer, or [NaN]. *)
Inductive index : Type :=
| At (i : Z)
| NotANumber.

(** [(i + k) % n] for integers [k] and [n]: the remainder has the sign of
    the dividend, and a zero divisor gives [NaN]. *)
Definition shift (i : index) (k n : Z) : index :=
  match i with
  | At x => if (n =? 0)%Z then NotANumber else At (Z.rem (x + k) n)
  | NotANumber => NotANumber
  end.

Record State : Type :=
  { featuredMovies : list Movie.t; currentIndex : index; loading : bool }.

Definition initial : State :=
  {| featuredMovies := []; currentIndex := At 0; loading := true |}.

Definition featuredTitles : list jsstring :=
  List.map js ["Avengers"; "Star Wars"; "Jurassic Park"; "Harry Potter";
               "Lord of the Rings"]%string.

(** The five searches, started one after the other; [Promise.all] settles
    to all the results, or to the first rejection. *)
Fixpoint search_all (net : Request -> Web.FetchResult SearchResult)
    (titles : list jsstring) (log : list Request)
  : list Request * completion (list SearchResult) :=
  match titles with
  | [] => (log, Normal [])
  | title :: rest =>
      let '(log1, r) := Web.searchMovies net title (Some (js "movie")) (Some []) log in
      let '(log2, rs) := search_all net rest log1 in
      (log2,
       match r with
       | Normal x => match rs with Normal xs => Normal (x :: xs) | Throw e => Throw e end
       | Throw e => Throw e
       end)
  end.

(** [fetchFeaturedMovies()]. *)
Definition fetchFeaturedMovies (net : Request -> Web.FetchResult SearchResult)
    (log : list Request) (st : State) : list Request * State :=
  let '(log', results) := search_all net featuredTitles log in
  (log',
   match results with
   | Normal rs =>
       {| featuredMovies := featured rs; currentIndex := currentIndex st;
          loading := false |}
   | Throw _ =>
       {| featuredMovies := featuredMovies st; currentIndex := currentIndex st;
          loading := false |}
   end).

(** [nextSlide], which is also what the six-second timer does. *)
Definition nextSlide (st : State) : State :=
  {| featuredMovies := featuredMovies st;
     currentIndex := shift (currentIndex st) 1 (Z.of_nat (length (featuredMovies st)));
     loading := loading st |}.

(** [prevSlide]: [(prevIndex - 1 + length) % length]. *)
Definition prevSlide (st : State) : State :=
  let n := Z.of_nat (length (featuredMovies st)) in
  {| featuredMovies := featuredMovies st;
     currentIndex := shift (currentIndex st) (- 1 + n) n;
     loading := loading st |}.

Inductive View : Type :=
| Spinner
| Nothing
| Slide (m : Movie.t).

(** [featuredMovies[currentIndex]]: [undefined] unless the index is an
    integer within the array. *)
Definition current (st : State) : option Movie.t :=
  match currentIndex st with
  | At i => if (0 <=? i)%Z then nth_error (featuredMovies st) (Z.to_nat i) else None
  | NotANumber => None
  end.

(** What the component renders; reading [Poster] of [undefined] throws
    TypeError. *)
Definition render (st : State) : completion View :=
  if loading st then Normal Spinner
  else
    match featuredMovies st with
    | [] => Normal Nothing
    | _ :: _ =>
        match current st with
        | Some m => Normal (Slide m)
        | None => Throw TypeError
        end
    end.

Inductive Action : Type :=
| Next
| Prev.

Definition act (st : State) (a : Action) : State :=
  match a with
  | Next => nextSlide st
  | Prev => prevSlide st
  end.

(** The state after the buttons and the timer have acted in turn. *)
Definition run (acts : list Action) (st : State) : State := fold_left act acts st.

(** How far a sequence of actions moves the slide: forward steps less
    backward steps. *)
Definition offset (acts : list Action) : Z :=
  fold_right (fun a k => match a with Next => 1 + k | Prev => -1 + k end)%Z 0%Z acts.

(** The GET of one featured title. *)
Definition request (title : jsstring) : Request := Search title (js "movie") [].

(** A movie with a poster, as the search endpoint lists it. *)
Definition listed (title imdbID : string) : Movie.t :=
  {| Movie.Title := js title; Movie.Year := js "2012"; Movie.imdbID := js imdbID;
     Movie.Type_ := js "movie";
     Movie.Poster := Some (js "https://img.example/" ++ js imdbID ++ js ".jpg") |}.

(** A network on which every search finds one movie, named after the
    search term. *)
Definition one_hit (req : Request) : Web.FetchResult SearchResult :=
  match req with
  | Search s _ _ =>
      Web.Response true
        (Normal {| Search_ := Some [{| Movie.Title := s; Movie.Year := js "2012";
                                       Movie.imdbID := js "tt0848228";
                                       Movie.Type_ := js "movie";
                                       Movie.Poster := Some (js "https://img.example/p.jpg") |}] |})
  | Details _ _ => Web.NetworkError
  end.

End MovieCarousel.

(** ** [navigation/AppNavigator.tsx] (React Native client) *)

Module AppNavigator.

Inductive Screen : Type :=
| Login
| Register
| MainTabs
| MovieDetails.

(** The screens of the stack, chosen by the [isAuthenticated] flag of the
    store. *)
Definition screens (w : World) : list Screen :=
  if negb (isAuthenticated (state w)) then [Login; Register]
  else [MainTabs; MovieDetails].

End AppNavigator.

(** ** Histories of the store *)

(** A call of one of the store's actions, with the clock it finds. *)
Inductive Call : Type :=
| CallLogin (now : Z) (email password : jsstring)
| CallRegister (now : Z) (email name password : jsstring)
| CallLogout.

Definition call (toLowerCase : jsstring -> jsstring) (w : World) (c : Call) : World :=
  match c with
  | CallLogin now email password => fst (login toLowerCase now email password w)
  | CallRegister now email name password =>
      fst (register toLowerCase now email name password w)
  | CallLogout => logout w
  end.

(** The store after a history of calls, whether they returned or threw. *)
Definition after (toLowerCase : jsstring -> jsstring) (calls : list Call) (w : World) : World :=
  fold_left (call toLowerCase) calls w.

(** The session is either empty, or holds the fields of an account of the
    table together with a token minted for that account. *)
Definition session_consistent (w : World) : Prop :=
  state w = {| user := None; isAuthenticated := false; token := None |} \/
  exists key a now tok,
    MOCK_USERS w !! key = Some a /\
    generateJWT (account_payload a now) = Normal tok /\
    state w = {| user := Some (account_user a); isAuthenticated := true;
                 token := Some tok |}.

(** Every account is filed under its own email, and no two accounts share
    an id: the ids are the numbers from 1 to the size of the table. *)
Definition accounts_consistent (w : World) : Prop :=
  (forall key a, MOCK_USERS w !! key = Some a -> Account.email a = key) /\
  (forall key a, MOCK_USERS w !! key = Some a ->
     exists n : nat, (1 <= n <= size (MOCK_USERS w))%nat /\
                     Account.id a = Number.toString (Z.of_nat n)) /\
  (forall key key' a a',
     MOCK_USERS w !! key = Some a -> MOCK_USERS w !! key' = Some a' ->
     Account.id a = Account.id a' -> key = key').

(** The account [register] builds for a new email. *)
Definition new_account (toLowerCase : jsstring -> jsstring) (w : World)
    (email name password : jsstring) : Account.t :=
  {| Account.id := Number.toString (Z.of_nat (size (MOCK_USERS w)) + 1);
     Account.email := toLowerCase email;
     Account.name := name;
     Account.password := password |}.

(** A string with a code unit above U+00FF that is not half of a surrogate
    pair: [JSON.stringify] copies such a unit and [btoa] refuses it. *)
Definition outside_latin1 (s : jsstring) : Prop :=
  exists c, In c s /\ 255 < c /\
            JSON.is_high_surrogate c = false /\ JSON.is_low_surrogate c = false.


(** The clocks at which [new Date()] is at least a day before the end of
    the range of dates. *)
Definition clock_in_range (now : Z) : Prop :=
  (- Date.max_time <= now <= Date.max_time - 24 * 60 * 60 * 1000)%Z.

(** The instant a token minted at clock [now] expires, in milliseconds. *)
Definition expiry_of (now : Z) : Z := ((now / 1000 + 24 * 60 * 60) * 1000)%Z.

(** The two paths the middleware treats as public. *)
Definition public_path (path : jsstring) : Prop :=
  path = js "/auth/login" \/ path = js "/auth/register".

(** The text the persisted store keeps under [auth-storage] for a session
    that holds the token [tok]: the flag and the token in [state], and the
    version beside it. *)
Definition envelope (tok : jsstring) : jsstring :=
  js "{" ++ JSON.quote (js "state") ++ js ":{"
    ++ JSON.quote (js "isAuthenticated") ++ js ":true,"
    ++ JSON.quote (js "token") ++ js ":" ++ JSON.quote tok
    ++ js "}," ++ JSON.quote (js "version") ++ js ":0}".

(** The store after the demo account has logged in at a clock in
    November 2023. *)
Definition demo_session : World :=
  fst (login ascii_toLowerCase 1700000000123 (js "demo@example.com")
         (js "demo123") initial_world).

(** ** Histories of the cached API client *)

Section CacheHistories.

Variable Data : Type.

(** A call of one of the two functions of the client, with the network and
    the clocks it finds. *)
Inductive ApiCall : Type :=
| SearchMovies (net : Request -> completion Data) (now now' : Z)
    (term : jsstring) (type year : option jsstring)
| GetMovieDetails (net : Request -> completion Data) (now now' : Z)
    (imdbID : jsstring).

Definition api_call (env : Native.Env Data) (c : ApiCall)
  : Native.Env Data * completion Data :=
  match c with
  | SearchMovies net now now' term type year =>
      Native.searchMovies net now now' term type year env
  | GetMovieDetails net now now' imdbID =>
      Native.getMovieDetails net now now' imdbID env
  end.

(** The storage and the log after a sequence of calls, whether they
    returned or threw. *)
Definition api_run (calls : list ApiCall) (env : Native.Env Data) : Native.Env Data :=
  fold_left (fun e c => fst (api_call e c)) calls env.

(** The cache key of a call, the GET it issues on a miss, what the network
    answers to that GET, and the clock at which the answer is stored. *)
Definition cache_key (c : ApiCall) : jsstring :=
  match c with
  | SearchMovies _ _ _ term type year => Native.search_key term type year
  | GetMovieDetails _ _ _ imdbID => Native.details_key imdbID
  end.

Definition api_request (c : ApiCall) : Request :=
  match c with
  | SearchMovies _ _ _ term type year => Search term (or_empty type) (or_empty year)
  | GetMovieDetails _ _ _ imdbID => Details imdbID (js "full")
  end.

Definition answer (c : ApiCall) : completion Data :=
  match c with
  | SearchMovies net _ _ _ _ _ => net (api_request c)
  | GetMovieDetails net _ _ _ => net (api_request c)
  end.

Definition write_clock (c : ApiCall) : Z :=
  match c with
  | SearchMovies _ _ now' _ _ _ => now'
  | GetMovieDetails _ _ now' _ => now'
  end.

(** An entry written by the call [c]. *)
Definition written_by (c : ApiCall) (key : jsstring) (entry : Native.CacheEntry Data) : Prop :=
  cache_key c = key /\
  answer c = Normal (Native.data entry) /\
  Native.timestamp entry = write_clock c.

End CacheHistories.

Arguments SearchMovies {Data} net now now' term type year.
Arguments GetMovieDetails {Data} net now now' imdbID.
Arguments api_call {Data} env c.
Arguments api_run {Data} calls env.
Arguments cache_key {Data} c.
Arguments api_request {Data} c.
Arguments answer {Data} c.
Arguments write_clock {Data} c.
Arguments written_by {Data} c key entry.
(** * Proofs *)

(** ** Base64 *)

Lemma list_ind3 {A : Type} (P : list A -> Prop) :
  P [] -> (forall a, P [a]) -> (forall a b, P [a; b]) ->
  (forall a b c r, P r -> P (a :: b :: c :: r)) ->
  forall l, P l.
Proof.
  intros H0 H1 H2 H3. fix IH 1.
  intros [|a [|b [|c r]]]; [exact H0 | apply H1 | apply H2 | apply H3, IH].
Qed.

Lemma encode_sextet_alphabet n : in_alphabet (Base64.encode_sextet n).
Proof. unfold in_alphabet, Base64.encode_sextet. case_cmp; lia. Qed.

Lemma decode_encode_sextet n :
  n < 64 -> Base64.decode_char (Base64.encode_sextet n) = Some n.
Proof.
  intros Hn. unfold Base64.decode_char, Base64.encode_sextet.
  case_cmp; simpl; try lia; f_equal; lia.
Qed.

Lemma alphabet_not_whitespace c :
  in_alphabet c -> Base64.is_ascii_whitespace c = false.
Proof.
  unfold in_alphabet, Base64.is_ascii_whitespace.
  intros H. case_cmp; simpl; try reflexivity; lia.
Qed.

Lemma encode_sextets bytes :
  Base64.encode bytes = List.map Base64.encode_sextet (sextets bytes) ++ padding bytes.
Proof.
  induction bytes as [|a|a b|a b c r IH] using list_ind3; try reflexivity.
  cbn [Base64.encode sextets padding List.map app]. now rewrite IH.
Qed.

Lemma sextets_bound bytes :
  Forall (fun b => b <= 255) bytes -> Forall (fun v => v < 64) (sextets bytes).
Proof.
  induction bytes as [|a|a b|a b c r IH] using list_ind3; intros H; cbn [sextets].
  - constructor.
  - inversion_clear H. repeat constructor; lia.
  - inversion_clear H as [|? ? Ha H']. inversion_clear H' as [|? ? Hb _].
    repeat constructor; lia.
  - inversion_clear H as [|? ? Ha H']. inversion_clear H' as [|? ? Hb H''].
    inversion_clear H'' as [|? ? Hc Hr].
    repeat (constructor; [lia|]). auto.
Qed.

Lemma decode_groups_sextets bytes :
  Forall (fun b => b <= 255) bytes -> Base64.decode_groups (sextets bytes) = bytes.
Proof.
  induction bytes as [|a|a b|a b c r IH] using list_ind3; intros H;
    cbn [sextets Base64.decode_groups].
  - reflexivity.
  - inversion_clear H. f_equal. lia.
  - inversion_clear H as [|? ? Ha H']. inversion_clear H' as [|? ? Hb _].
    f_equal; [lia|]. f_equal. lia.
  - inversion_clear H as [|? ? Ha H']. inversion_clear H' as [|? ? Hb H''].
    inversion_clear H'' as [|? ? Hc Hr].
    rewrite IH by assumption. f_equal; [lia|]. f_equal; [lia|]. f_equal. lia.
Qed.

Lemma decode_all_encode v :
  Forall (fun x => x < 64) v ->
  Base64.decode_all (List.map Base64.encode_sextet v) = Some v.
Proof.
  induction 1 as [|x v Hx _ IH]; simpl; [reflexivity|].
  now rewrite decode_encode_sextet, IH.
Qed.

Lemma padding_cases bytes :
  padding bytes = [] \/ padding bytes = [61] \/ padding bytes = [61; 61].
Proof.
  induction bytes as [|a|a b|a b c r IH] using list_ind3; cbn [padding]; auto.
Qed.

Lemma encode_length bytes : (length (Base64.encode bytes) mod 4 = 0)%nat.
Proof.
  induction bytes as [|a|a b|a b c r IH] using list_ind3; try reflexivity.
  cbn [Base64.encode length].
  replace (S (S (S (S (length (Base64.encode r))))))
    with (length (Base64.encode r) + 1 * 4)%nat by lia.
  now rewrite Nat.Div0.mod_add.
Qed.

Lemma sextets_length bytes : (length (sextets bytes) mod 4 <> 1)%nat.
Proof.
  induction bytes as [|a|a b|a b c r IH] using list_ind3; try (cbn; lia).
  cbn [sextets length].
  replace (S (S (S (S (length (sextets r))))))
    with (length (sextets r) + 1 * 4)%nat by lia.
  now rewrite Nat.Div0.mod_add.
Qed.

Lemma strip_padding_encoded (v pad : jsstring) :
  Forall (fun c => c <> 61) v ->
  pad = [] \/ pad = [61] \/ pad = [61; 61] ->
  (length (v ++ pad) mod 4 = 0)%nat ->
  Base64.strip_padding (v ++ pad) = v.
Proof.
  intros Hv Hpad Hlen. unfold Base64.strip_padding.
  rewrite Hlen. cbn [Nat.eqb]. rewrite rev_app_distr.
  assert (Hhead : forall x r, rev v = x :: r -> (x =? 61) = false).
  { intros x r E. apply N.eqb_neq. rewrite List.Forall_forall in Hv. apply Hv.
    apply in_rev. rewrite E. now left. }
  destruct Hpad as [-> | [-> | ->]]; cbn [rev app].
  - rewrite app_nil_r. destruct (rev v) as [|x r] eqn:E; [reflexivity|].
    now rewrite (Hhead x r eq_refl).
  - cbn [N.eqb Pos.eqb]. destruct (rev v) as [|x r] eqn:E.
    + now rewrite <- (rev_involutive v), E.
    + rewrite (Hhead x r eq_refl). now rewrite <- E, rev_involutive.
  - cbn [N.eqb Pos.eqb]. now rewrite rev_involutive.
Qed.

Lemma filter_all {A : Type} (f : A -> bool) (l : list A) :
  Forall (fun x => f x = true) l -> List.filter f l = l.
Proof.
  induction 1 as [|x l Hx _ IH]; simpl; [reflexivity|]. now rewrite Hx, IH.
Qed.

Lemma encode_chars bytes :
  Forall (fun c => in_alphabet c \/ c = 61) (Base64.encode bytes).
Proof.
  rewrite encode_sextets. apply List.Forall_app. split.
  - apply List.Forall_forall. intros c Hc. apply in_map_iff in Hc as [n [<- _]].
    left. apply encode_sextet_alphabet.
  - destruct (padding_cases bytes) as [-> | [-> | ->]];
      repeat (apply List.Forall_cons; [now right|]); apply List.Forall_nil.
Qed.

(** [atob] undoes [btoa] on every string [btoa] accepts. *)
Lemma atob_encode bytes :
  Forall (fun b => b <= 255) bytes ->
  Base64.atob (Base64.encode bytes) = Normal bytes.
Proof.
  intros Hb. unfold Base64.atob.
  rewrite filter_all.
  2:{ eapply List.Forall_impl; [|apply encode_chars].
      intros c [Hc | ->]; [|reflexivity].
      now rewrite alphabet_not_whitespace. }
  pose proof (encode_length bytes) as Hlen.
  rewrite encode_sextets in *.
  rewrite strip_padding_encoded; [| |apply padding_cases|assumption].
  2:{ apply List.Forall_forall. intros c Hc. apply in_map_iff in Hc as [n [<- _]].
      pose proof (encode_sextet_alphabet n) as Ha. unfold in_alphabet in Ha. lia. }
  rewrite length_map.
  destruct (Nat.eqb_spec (length (sextets bytes) mod 4) 1) as [E|_].
  - now apply sextets_length in E.
  - rewrite decode_all_encode by now apply sextets_bound.
    now rewrite decode_groups_sextets.
Qed.

Lemma btoa_atob s t : Base64.btoa s = Normal t -> Base64.atob t = Normal s.
Proof.
  unfold Base64.btoa. destruct (forallb _ s) eqn:E; [|discriminate].
  intros [= <-]. apply atob_encode. apply List.Forall_forall. intros b Hb.
  rewrite forallb_forall in E. apply N.leb_le. now apply E.
Qed.

Lemma encode_no_dot bytes : ~ In 46 (Base64.encode bytes).
Proof.
  intros H. pose proof (encode_chars bytes) as Hc. rewrite List.Forall_forall in Hc.
  apply Hc in H as [H | H]; [unfold in_alphabet in H; lia | lia].
Qed.

Lemma btoa_no_dot s t : Base64.btoa s = Normal t -> ~ In 46 t.
Proof.
  unfold Base64.btoa. destruct (forallb _ s); [|discriminate].
  intros [= <-]. apply encode_no_dot.
Qed.

(** ** JSON: parsing what [JSON.stringify] prints *)

Lemma run_app st a b :
  JSON.run st (a ++ b) =
  match JSON.run st a with Some st' => JSON.run st' b | None => None end.
Proof.
  revert st. induction a as [|c a IH]; intros st; simpl; [reflexivity|].
  destruct (JSON.step st c); auto.
Qed.

Lemma hex_value_digit n : n < 16 -> JSON.hex_value (JSON.hex_digit n) = Some n.
Proof.
  intros Hn. unfold JSON.hex_value, JSON.hex_digit, Number.is_digit.
  case_cmp; simpl; try lia; f_equal; lia.
Qed.

Lemma step_unicode acc n v p stack d :
  d < 16 ->
  JSON.step (JSON.State (JSON.InUnicode acc n v) p stack) (JSON.hex_digit d) =
  Some (if (n =? 3)%nat
        then JSON.State (JSON.InString (v * 16 + d :: acc)) p stack
        else JSON.State (JSON.InUnicode acc (S n) (v * 16 + d)) p stack).
Proof.
  intros Hd. cbn [JSON.step JSON.st_mode JSON.st_pos JSON.st_stack].
  rewrite hex_value_digit by assumption. now destruct (n =? 3)%nat.
Qed.

(** Inside a string, [\uXXXX] reads back as the code unit it escapes. *)
Lemma run_unicode_escape acc p stack c rest :
  c < 65536 ->
  JSON.run (JSON.State (JSON.InString acc) p stack) (JSON.unicode_escape c ++ rest) =
  JSON.run (JSON.State (JSON.InString (c :: acc)) p stack) rest.
Proof.
  intros Hc. unfold JSON.unicode_escape.
  change (JSON.run (JSON.State (JSON.InString acc) p stack)
            ([92; 117; JSON.hex_digit ((c / 4096) mod 16);
              JSON.hex_digit ((c / 256) mod 16); JSON.hex_digit ((c / 16) mod 16);
              JSON.hex_digit (c mod 16)] ++ rest))
    with (JSON.run (JSON.State (JSON.InUnicode acc 0 0) p stack)
            ([JSON.hex_digit ((c / 4096) mod 16);
              JSON.hex_digit ((c / 256) mod 16); JSON.hex_digit ((c / 16) mod 16);
              JSON.hex_digit (c mod 16)] ++ rest)).
  cbn [app JSON.run].
  repeat (rewrite step_unicode by lia; cbn [Nat.eqb]).
  match goal with
  | |- JSON.run (JSON.State (JSON.InString (?x :: _)) _ _) _ = _ =>
      replace x with c; [reflexivity|]
  end.
  replace (c / 4096) with (c / 16 / 16 / 16) by (rewrite !N.Div0.div_div; reflexivity).
  replace (c / 256) with (c / 16 / 16) by (rewrite !N.Div0.div_div; reflexivity).
  lia.
Qed.

Lemma step_plain acc p stack c :
  32 <= c -> c <> 34 -> c <> 92 ->
  JSON.step (JSON.State (JSON.InString acc) p stack) c =
  Some (JSON.State (JSON.InString (c :: acc)) p stack).
Proof.
  intros H1 H2 H3. cbn [JSON.step JSON.st_mode JSON.st_pos JSON.st_stack].
  case_cmp; try lia. reflexivity.
Qed.

(** A code unit that does not open a surrogate pair reads back as itself. *)
Lemma run_escape_unit acc p stack c rest :
  JSON.run (JSON.State (JSON.InString acc) p stack) (JSON.escape_unit c ++ rest) =
  JSON.run (JSON.State (JSON.InString (c :: acc)) p stack) rest.
Proof.
  unfold JSON.escape_unit.
  repeat match goal with
  | |- context [if ?c =? ?k then _ else _] =>
      destruct (N.eqb_spec c k) as [->|?]; [reflexivity|]
  end.
  destruct (_ || _) eqn:E.
  - apply run_unicode_escape.
    unfold JSON.is_high_surrogate, JSON.is_low_surrogate in E.
    revert E. case_cmp; simpl; intros; try discriminate; lia.
  - cbn [app JSON.run]. rewrite step_plain; [reflexivity| |assumption|assumption].
    apply orb_false_elim in E as [E _]. apply orb_false_elim in E as [E _].
    apply N.ltb_ge in E. exact E.
Qed.

Lemma run_quote_units s : forall acc p stack rest,
  JSON.run (JSON.State (JSON.InString acc) p stack) (JSON.quote_units s ++ rest) =
  JSON.run (JSON.State (JSON.InString (rev s ++ acc)) p stack) rest.
Proof.
  assert (H : forall n s, (length s <= n)%nat -> forall acc p stack rest,
    JSON.run (JSON.State (JSON.InString acc) p stack) (JSON.quote_units s ++ rest) =
    JSON.run (JSON.State (JSON.InString (rev s ++ acc)) p stack) rest).
  2:{ apply (H (length s)). lia. }
  clear s. induction n as [|n IH]; intros [|c r] Hlen acc p stack rest;
    try reflexivity; simpl in Hlen; [lia|].
  cbn [JSON.quote_units rev]. rewrite <- app_assoc. cbn [app].
  destruct (JSON.is_high_surrogate c) eqn:Hh.
  - assert (Hc : 55296 <= c <= 56319).
    { unfold JSON.is_high_surrogate in Hh. revert Hh. case_cmp; simpl; intros; try discriminate; lia. }
    destruct r as [|d r'].
    + rewrite run_unicode_escape by lia. reflexivity.
    + destruct (JSON.is_low_surrogate d) eqn:Hl.
      * assert (Hd : 56320 <= d <= 57343).
        { unfold JSON.is_low_surrogate in Hl. revert Hl. case_cmp; simpl; intros; try discriminate; lia. }
        cbn [app JSON.run]. rewrite !step_plain by lia.
        rewrite IH by (simpl in Hlen; lia).
        cbn [rev]. now rewrite <- !app_assoc.
      * rewrite <- app_assoc, run_unicode_escape by lia.
        now rewrite IH by lia.
  - rewrite <- app_assoc, run_escape_unit. now rewrite IH by lia.
Qed.

(** A quoted string, read from inside its opening quote. *)
Lemma run_quote s p stack rest :
  JSON.run (JSON.State (JSON.InString []) p stack) (JSON.quote_units s ++ 34 :: rest) =
  match JSON.finish_string s p stack with
  | Some st => JSON.run st rest
  | None => None
  end.
Proof.
  rewrite run_quote_units. cbn [JSON.run JSON.step JSON.st_mode JSON.st_pos JSON.st_stack N.eqb Pos.eqb].
  now rewrite app_nil_r, rev_involutive.
Qed.

(** ** Numbers: reading what [Number.toString] prints *)

Lemma uint_of_digits_of_uint u :
  Number.uint_of_digits (Number.digits_of_uint u) = Some u.
Proof.
  induction u; cbn [Number.digits_of_uint Number.uint_of_digits Number.digit_of_char];
    [reflexivity | now rewrite IHu ..].
Qed.

Lemma digits_of_uint_digits u :
  Forall (fun c => Number.is_digit c = true) (Number.digits_of_uint u).
Proof. induction u; cbn [Number.digits_of_uint]; constructor; auto. Qed.

Lemma span_digits_all ds :
  Forall (fun c => Number.is_digit c = true) ds ->
  Number.span_digits ds = (ds, []).
Proof.
  induction 1 as [|c ds Hc _ IH]; cbn [Number.span_digits]; [reflexivity|].
  now rewrite Hc, IH.
Qed.

Lemma digits_value_of_uint u :
  Number.digits_value (Number.digits_of_uint u) = Z.of_uint u.
Proof. unfold Number.digits_value. now rewrite uint_of_digits_of_uint. Qed.

(** The decimal digits of a positive number start with a non-zero digit. *)
Lemma to_uint_head p :
  Pos.to_uint p <> Nil /\ forall u, Pos.to_uint p <> D0 u.
Proof.
  split; [apply Unsigned.to_uint_nonnil|].
  intros u E.
  assert (Hn : unorm (Pos.to_uint p) = Pos.to_uint p).
  { rewrite <- DecimalPos.Unsigned.to_of, DecimalPos.Unsigned.of_to. reflexivity. }
  assert (Hz : nzhead (Pos.to_uint p) <> Nil).
  { intros Hnil. apply unorm_0 in Hnil. rewrite Hn in Hnil.
    now apply (DecimalPos.Unsigned.to_uint_nonzero p). }
  rewrite (unorm_nzhead _ Hz) in Hn.
  apply (nzhead_nonzero (Pos.to_uint p) u). now rewrite Hn.
Qed.

Lemma of_json_literal_digits (neg : bool) (u : uint) :
  u <> Nil -> (forall u', u <> D0 u') \/ u = D0 Nil ->
  Number.of_json_literal ((if neg then [45] else []) ++ Number.digits_of_uint u) =
  Some (Dec (if neg then - Z.of_uint u else Z.of_uint u)%Z 0).
Proof.
  intros Hnil Hhead.
  assert (Hspan := span_digits_all _ (digits_of_uint_digits u)).
  assert (Hval := digits_value_of_uint u).
  assert (E : Number.of_json_literal ((if neg then [45] else []) ++ Number.digits_of_uint u) =
              let '(ip, s2) := Number.span_digits (Number.digits_of_uint u) in
              match ip with
              | [] => None
              | 48 :: _ :: _ => None
              | _ =>
                  let '(fp, s3) :=
                    match s2 with
                    | 46 :: r => let '(f, r') := Number.span_digits r in (Some f, r')
                    | _ => (None, s2)
                    end in
                  match fp with
                  | Some [] => None
                  | _ =>
                      match Number.exponent_part s3 with
                      | Some e => Some (Number.decimal neg ip (default [] fp) e)
                      | None => None
                      end
                  end
              end).
  { destruct neg; [reflexivity|].
    destruct u; try reflexivity; now destruct Hnil. }
  rewrite E, Hspan. clear E Hspan.
  assert (D : Number.decimal neg (Number.digits_of_uint u) [] 0 =
              Dec (if neg then - Z.of_uint u else Z.of_uint u)%Z 0).
  { unfold Number.decimal. now rewrite app_nil_r, Hval. }
  destruct u as [|u'|u'|u'|u'|u'|u'|u'|u'|u'|u']; try (now destruct Hnil);
    try (cbn [Number.digits_of_uint Number.exponent_part default] in *; now rewrite D).
  destruct Hhead as [H | [= ->]]; [now destruct (H u')|].
  reflexivity.
Qed.

Lemma of_json_literal_toString z :
  Number.of_json_literal (Number.toString z) = Some (Dec z 0).
Proof.
  unfold Number.toString.
  destruct z as [|p|p]; cbn [Z.to_int].
  - reflexivity.
  - destruct (to_uint_head p) as [Hn Hh].
    change (Number.digits_of_uint (Pos.to_uint p))
      with ((if false then [45] else []) ++ Number.digits_of_uint (Pos.to_uint p)).
    rewrite of_json_literal_digits by auto.
    do 2 f_equal. unfold Z.of_uint. now rewrite DecimalPos.Unsigned.of_to.
  - destruct (to_uint_head p) as [Hn Hh].
    change (45 :: Number.digits_of_uint (Pos.to_uint p))
      with ((if true then [45] else []) ++ Number.digits_of_uint (Pos.to_uint p)).
    rewrite of_json_literal_digits by auto.
    do 2 f_equal. unfold Z.of_uint. now rewrite DecimalPos.Unsigned.of_to.
Qed.

Lemma digit_is_number_char c : Number.is_digit c = true -> JSON.is_number_char c = true.
Proof. intros H. unfold JSON.is_number_char. now rewrite H. Qed.

(** What [Number.toString] prints: a digit or a minus sign, then digits. *)
Lemma toString_shape z :
  exists c cs, Number.toString z = c :: cs /\
    (Number.is_digit c || (c =? 45)) = true /\
    Forall (fun c => Number.is_digit c = true) cs.
Proof.
  unfold Number.toString. destruct (Z.to_int z) as [u|u] eqn:E.
  - assert (Hu : u <> Nil).
    { destruct z; cbn in E; try discriminate; injection E as <-;
        [discriminate | apply to_uint_head]. }
    pose proof (digits_of_uint_digits u) as Hd.
    destruct (Number.digits_of_uint u) as [|c cs] eqn:Eu.
    + destruct u; try discriminate. now destruct Hu.
    + exists c, cs. inversion_clear Hd as [|? ? Hc Hcs].
      split; [reflexivity|]. split; [now rewrite Hc | assumption].
  - exists 45, (Number.digits_of_uint u). split; [reflexivity|].
    split; [reflexivity | apply digits_of_uint_digits].
Qed.

Lemma run_number_chars cs : forall acc p stack rest,
  Forall (fun c => JSON.is_number_char c = true) cs ->
  JSON.run (JSON.State (JSON.InNumber acc) p stack) (cs ++ rest) =
  JSON.run (JSON.State (JSON.InNumber (rev cs ++ acc)) p stack) rest.
Proof.
  induction cs as [|c cs IH]; intros acc p stack rest H; [reflexivity|].
  inversion_clear H as [|? ? Hc Hcs].
  cbn [app JSON.run JSON.step JSON.st_mode JSON.st_pos JSON.st_stack].
  rewrite Hc, IH by assumption. cbn [rev]. now rewrite <- app_assoc.
Qed.

Lemma idle_step_number_start stack c :
  (Number.is_digit c || (c =? 45)) = true ->
  JSON.idle_step JSON.PValue stack c =
  Some (JSON.State (JSON.InNumber [c]) JSON.PValue stack).
Proof.
  intros H.
  assert (Hc : c = 45 \/ c = 48 \/ c = 49 \/ c = 50 \/ c = 51 \/ c = 52 \/
               c = 53 \/ c = 54 \/ c = 55 \/ c = 56 \/ c = 57).
  { unfold Number.is_digit in H. revert H. case_cmp; simpl; intros; try discriminate; lia. }
  repeat (destruct Hc as [-> | Hc]; [reflexivity|]). now subst.
Qed.

(** A printed integer in value position, up to the delimiter after it. *)
Lemma run_number z stack d rest :
  JSON.is_number_char d = false ->
  JSON.run (JSON.State JSON.Idle JSON.PValue stack) (Number.toString z ++ d :: rest) =
  match JSON.idle_step
          (JSON.st_pos (JSON.finish_value (JSON.Num (Dec z 0)) stack))
          (JSON.st_stack (JSON.finish_value (JSON.Num (Dec z 0)) stack)) d with
  | Some st => JSON.run st rest
  | None => None
  end.
Proof.
  intros Hd.
  destruct (toString_shape z) as (c & cs & E & Hc & Hcs).
  pose proof (of_json_literal_toString z) as Hlit. rewrite E in *.
  cbn [app JSON.run JSON.step JSON.st_mode JSON.st_pos JSON.st_stack].
  rewrite idle_step_number_start by assumption.
  rewrite run_number_chars.
  2:{ eapply List.Forall_impl; [|exact Hcs]. apply digit_is_number_char. }
  cbn [JSON.run JSON.step JSON.st_mode JSON.st_pos JSON.st_stack].
  rewrite Hd.
  replace (rev (rev cs ++ [c])) with (c :: cs)
    by (now rewrite rev_app_distr, rev_involutive).
  now rewrite Hlit.
Qed.

Lemma run_field f done k stack d rest :
  d = 44 \/ d = 125 ->
  JSON.run (JSON.State JSON.Idle JSON.PValue (JSON.KObj done k :: stack))
    (JSON.stringify_field f ++ d :: rest) =
  match JSON.idle_step (JSON.PAfterMember ((k, JSON.value_of_field f) :: done)) stack d with
  | Some st => JSON.run st rest
  | None => None
  end.
Proof.
  intros Hd. destruct f as [s|z]; cbn [JSON.stringify_field JSON.value_of_field].
  - unfold JSON.quote. rewrite <- app_comm_cons, <- app_assoc.
    change (JSON.run _ (34 :: ?t))
      with (JSON.run (JSON.State (JSON.InString []) JSON.PValue (JSON.KObj done k :: stack)) t).
    cbn [app]. rewrite run_quote. reflexivity.
  - rewrite run_number by (destruct Hd as [-> | ->]; reflexivity). reflexivity.
Qed.

Lemma run_key k p done stack rest :
  key_pos p done ->
  JSON.run (JSON.State JSON.Idle p stack) (JSON.quote k ++ 58 :: rest) =
  JSON.run (JSON.State JSON.Idle JSON.PValue (JSON.KObj done k :: stack)) rest.
Proof.
  intros Hp. unfold JSON.quote. rewrite <- app_comm_cons, <- app_assoc.
  assert (E : forall t, JSON.run (JSON.State JSON.Idle p stack) (34 :: t) =
                   JSON.run (JSON.State (JSON.InString []) p stack) t).
  { destruct Hp as [[-> _] | ->]; reflexivity. }
  rewrite E. cbn [app]. rewrite run_quote.
  destruct Hp as [[-> ->] | ->]; reflexivity.
Qed.

Lemma run_members ms : ms <> [] -> forall p done stack rest,
  key_pos p done ->
  JSON.run (JSON.State JSON.Idle p stack) (JSON.stringify_members ms ++ 125 :: rest) =
  JSON.run (JSON.finish_value (JSON.Obj (rev done ++ List.map member_value ms)) stack) rest.
Proof.
  induction ms as [|[k f] ms IH]; intros Hne p done stack rest Hp; [congruence|].
  destruct ms as [|m2 ms'].
  - cbn [JSON.stringify_members].
    rewrite <- app_assoc, <- app_comm_cons, (run_key k p done) by assumption.
    rewrite run_field by auto. reflexivity.
  - change (JSON.stringify_members ((k, f) :: m2 :: ms'))
      with (JSON.quote k ++ 58 :: JSON.stringify_field f ++ 44 :: JSON.stringify_members (m2 :: ms')).
    rewrite <- app_assoc, <- app_comm_cons, (run_key k p done) by assumption.
    rewrite <- app_assoc, <- app_comm_cons.
    rewrite run_field by auto.
    cbn [JSON.idle_step JSON.is_json_whitespace N.eqb Pos.eqb orb].
    rewrite (IH ltac:(discriminate) _ ((k, JSON.value_of_field f) :: done));
      [|now right].
    cbn [rev List.map member_value fst snd]. now rewrite <- app_assoc.
Qed.

(** [JSON.parse] reads back the object [JSON.stringify] printed. *)
Lemma parse_stringify ms :
  JSON.parse (JSON.stringify ms) = Normal (JSON.Obj (List.map member_value ms)).
Proof.
  unfold JSON.parse, JSON.stringify.
  change (JSON.run JSON.initial (123 :: ?t))
    with (JSON.run (JSON.State JSON.Idle JSON.PObjStart []) t).
  destruct ms as [|m ms]; [reflexivity|].
  rewrite (run_members (m :: ms) ltac:(discriminate) _ []); [|now left].
  reflexivity.
Qed.

(** ** Tokens *)

Lemma split_app sep a b :
  ~ In sep a -> split sep (a ++ sep :: b) = a :: split sep b.
Proof.
  induction a as [|c a IH]; intros Ha; cbn [app split].
  - now rewrite N.eqb_refl.
  - destruct (N.eqb_spec c sep) as [->|_]; [now destruct Ha; left|].
    rewrite IH; [reflexivity|]. intros H. apply Ha. now right.
Qed.

Lemma split_second sep a b c :
  ~ In sep a -> ~ In sep b ->
  nth_error (split sep (a ++ sep :: b ++ sep :: c)) 1 = Some b.
Proof. intros Ha Hb. now rewrite !split_app. Qed.

(** [generateJWT] returns a token exactly when [btoa] accepts the JSON
    text of the payload. *)
Lemma generateJWT_data p :
  generateJWT p =
  (data <- Base64.btoa (JSON.stringify (payload_members p)) ;;
   Normal (js "eyJhbGciOiJIUzI1NiIsInR5cCI6IkpXVCJ9"
             ++ 46 :: data ++ 46 :: js "bW9jay1zaWduYXR1cmU=")).
Proof. reflexivity. Qed.

Lemma generateJWT_inv p tok :
  generateJWT p = Normal tok ->
  exists data,
    Base64.btoa (JSON.stringify (payload_members p)) = Normal data /\
    tok = js "eyJhbGciOiJIUzI1NiIsInR5cCI6IkpXVCJ9"
            ++ 46 :: data ++ 46 :: js "bW9jay1zaWduYXR1cmU=".
Proof.
  rewrite generateJWT_data.
  destruct (Base64.btoa _) as [data|e]; cbn [bind]; [|discriminate].
  intros [= <-]. now exists data.
Qed.

(** A minted token is valid exactly when its expiry is a valid date after
    the clock. *)
Lemma isValidToken_generateJWT p tok now :
  generateJWT p = Normal tok ->
  isValidToken now tok = Date.gt (expiration p) (Some now).
Proof.
  intros H. apply generateJWT_inv in H as (data & Hdata & ->).
  unfold isValidToken, isValidToken_try.
  rewrite split_second.
  2:{ vm_compute. intuition discriminate. }
  2:{ eapply btoa_no_dot, Hdata. }
  cbn [ToString]. rewrite (btoa_atob _ _ Hdata). cbn [bind].
  rewrite parse_stringify. cbn [bind]. reflexivity.
Qed.

Lemma expiration_in_range p :
  (Z.abs (Payload.exp p * 1000) <= Date.max_time)%Z ->
  expiration p = Some (Payload.exp p * 1000)%Z.
Proof.
  intros H. unfold expiration, Date.of_number.
  change (10 ^ 3)%Z with 1000%Z. cbn [Z.leb Z.compare].
  apply Z.leb_le in H. now rewrite H.
Qed.


(** ** Token validation *)






(** ** Minting then validating *)




(** ** The auth store *)

Section AuthStoreFacts.

Variable toLowerCase : jsstring -> jsstring.

Lemma get_property_own (users : gmap jsstring Account.t) key a :
  users !! key = Some a -> get_property users key = Own a.
Proof. intros H. unfold get_property. now rewrite H. Qed.

Lemma get_property_not_own (users : gmap jsstring Account.t) key :
  users !! key = None ->
  get_property users key = Inherited \/ get_property users key = Undefined.
Proof.
  intros H. unfold get_property. rewrite H.
  destruct (bool_decide _); auto.
Qed.

(** A login that matches no stored account and password changes nothing. *)
Lemma login_mismatch (w : World) (now : Z) (email password : jsstring) :
  (forall a, MOCK_USERS w !! toLowerCase email = Some a ->
             Account.password a <> password) ->
  login toLowerCase now email password w = (w, Normal invalid_credentials).
Proof.
  intros H. unfold login.
  destruct (MOCK_USERS w !! toLowerCase email) as [a|] eqn:E.
  - rewrite (get_property_own _ _ _ E).
    destruct (decide (Account.password a = password)) as [Heq|_]; [|reflexivity].
    now destruct (H a eq_refl).
  - destruct (get_property_not_own _ _ E) as [-> | ->]; reflexivity.
Qed.

(** C10. A login that does not match a stored account and its password
    returns the failure result and leaves the account table and the session
    ([user], [isAuthenticated], [token]) exactly as they were; no token is
    minted, so nothing is thrown. *)
Theorem login_failure_atomic (w : World) (now : Z) (email password : jsstring) :
  (forall a, MOCK_USERS w !! toLowerCase email = Some a ->
             Account.password a <> password) ->
  login toLowerCase now email password w = (w, Normal invalid_credentials) /\
  state (fst (login toLowerCase now email password w)) = state w.
Proof.
  intros H. rewrite login_mismatch by assumption. split; reflexivity.
Qed.

(** C3. A wrong password for a registered account and any password for an
    unregistered email, in whatever states of the store and at whatever
    clocks, both make [login] return, without throwing, the same failure
    result with the same message. *)
Theorem login_failure_indistinguishable
    (w w' : World) (a : Account.t) (now now' : Z)
    (email wrong unknown any : jsstring) :
  MOCK_USERS w !! toLowerCase email = Some a ->
  wrong <> Account.password a ->
  MOCK_USERS w' !! toLowerCase unknown = None ->
  snd (login toLowerCase now email wrong w) = Normal invalid_credentials /\
  snd (login toLowerCase now' unknown any w') = Normal invalid_credentials /\
  message invalid_credentials = js "Invalid email or password".
Proof.
  intros Ha Hwrong Hnone. split; [|split; [|reflexivity]].
  - rewrite login_mismatch; [reflexivity|].
    intros a' Ha'. rewrite Ha in Ha'. injection Ha' as <-. congruence.
  - rewrite login_mismatch; [reflexivity|].
    intros a' Ha'. rewrite Hnone in Ha'. discriminate.
Qed.

(** C6. Registering an email whose lower-cased form already has an account
    returns the duplicate-account failure and changes nothing: not the
    account table (so not the stored password), not the session. *)
Theorem register_duplicate (w : World) (a : Account.t) (now : Z)
    (email name password : jsstring) :
  MOCK_USERS w !! toLowerCase email = Some a ->
  register toLowerCase now email name password w =
  (w, Normal {| success := false; message := js "User already exists" |}).
Proof. intros H. unfold register. now rewrite (get_property_own _ _ _ H). Qed.

(** A successful login, for an account a token can be minted for. *)
Lemma login_success (w : World) (a : Account.t) (now : Z) (email tok : jsstring) :
  MOCK_USERS w !! toLowerCase email = Some a ->
  generateJWT (account_payload a now) = Normal tok ->
  login toLowerCase now email (Account.password a) w =
  (set_session w (account_user a) tok,
   Normal {| success := true; message := js "Login successful" |}).
Proof.
  intros Ha Htok. unfold login. rewrite (get_property_own _ _ _ Ha).
  destruct (decide _) as [_|Hne]; [|now destruct Hne].
  fold (account_payload a now). rewrite Htok. reflexivity.
Qed.

(** When minting throws, so does the login, and nothing changes. *)
Lemma login_throws (w : World) (a : Account.t) (now : Z) (email : jsstring) e :
  MOCK_USERS w !! toLowerCase email = Some a ->
  generateJWT (account_payload a now) = Throw e ->
  login toLowerCase now email (Account.password a) w = (w, Throw e).
Proof.
  intros Ha Htok. unfold login. rewrite (get_property_own _ _ _ Ha).
  destruct (decide _) as [_|Hne]; [|now destruct Hne].
  fold (account_payload a now). rewrite Htok. reflexivity.
Qed.

End AuthStoreFacts.

(** C9. [logout] from any state leaves [user = null],
    [isAuthenticated = false], [token = null], keeps the account table, and
    is idempotent; [checkAuth] is false afterwards. *)
Theorem logout_clears (w : World) :
  state (logout w) = {| user := None; isAuthenticated := false; token := None |} /\
  MOCK_USERS (logout w) = MOCK_USERS w /\
  logout (logout w) = logout w /\
  forall now, checkAuth now (logout w) = false.
Proof. repeat split. Qed.

(** ** Minting: which payloads [btoa] accepts *)

Lemma latin1_app a b : latin1 a -> latin1 b -> latin1 (a ++ b).
Proof. intros Ha Hb. apply List.Forall_app. now split. Qed.

Lemma hex_digit_latin1 n : n < 16 -> JSON.hex_digit n <= 255.
Proof. intros H. unfold JSON.hex_digit. case_cmp; lia. Qed.

Lemma unicode_escape_latin1 c : latin1 (JSON.unicode_escape c).
Proof.
  unfold JSON.unicode_escape, latin1.
  repeat (apply List.Forall_cons; [try lia; apply hex_digit_latin1; lia|]).
  apply List.Forall_nil.
Qed.

Lemma escape_unit_latin1 c : c <= 255 -> latin1 (JSON.escape_unit c).
Proof.
  intros Hc. unfold JSON.escape_unit.
  repeat match goal with
  | |- context [if ?c =? ?k then _ else _] =>
      destruct (N.eqb_spec c k) as [->|?];
        [repeat (apply List.Forall_cons; [lia|]); apply List.Forall_nil|]
  end.
  destruct (_ || _); [apply unicode_escape_latin1|].
  apply List.Forall_cons; [assumption | apply List.Forall_nil].
Qed.

Lemma quote_units_latin1 s : latin1 s -> latin1 (JSON.quote_units s).
Proof.
  induction 1 as [|c r Hc _ IH]; cbn [JSON.quote_units]; [apply List.Forall_nil|].
  assert (Hh : JSON.is_high_surrogate c = false).
  { unfold JSON.is_high_surrogate. case_cmp; simpl; try reflexivity; lia. }
  rewrite Hh. apply latin1_app; [now apply escape_unit_latin1 | exact IH].
Qed.

Lemma quote_latin1 s : latin1 s -> latin1 (JSON.quote s).
Proof.
  intros H. unfold JSON.quote. apply List.Forall_cons; [lia|].
  apply latin1_app; [now apply quote_units_latin1|].
  apply List.Forall_cons; [lia | apply List.Forall_nil].
Qed.

Lemma toString_latin1 z : latin1 (Number.toString z).
Proof.
  destruct (toString_shape z) as (c & cs & -> & Hc & Hcs).
  assert (D : forall d, Number.is_digit d = true -> d <= 255).
  { intros d. unfold Number.is_digit. case_cmp; simpl; intros; try discriminate; lia. }
  apply List.Forall_cons.
  - apply orb_true_iff in Hc as [Hc | Hc]; [now apply D|].
    apply N.eqb_eq in Hc. lia.
  - eapply List.Forall_impl; [|exact Hcs]. exact D.
Qed.

Lemma stringify_field_latin1 k f :
  latin1_member (k, f) -> latin1 (JSON.stringify_field f).
Proof.
  intros [_ H]. destruct f; cbn [JSON.stringify_field snd] in *;
    [now apply quote_latin1 | apply toString_latin1].
Qed.

Lemma stringify_members_latin1 ms :
  Forall latin1_member ms -> latin1 (JSON.stringify_members ms).
Proof.
  induction 1 as [|[k f] ms Hm Hms IH]; [apply List.Forall_nil|].
  assert (Hk : latin1 (JSON.quote k)) by (apply quote_latin1, Hm).
  assert (Hf := stringify_field_latin1 k f Hm).
  destruct ms as [|m2 ms'].
  - cbn [JSON.stringify_members]. apply latin1_app; [assumption|].
    apply List.Forall_cons; [lia | assumption].
  - change (JSON.stringify_members ((k, f) :: m2 :: ms'))
      with (JSON.quote k ++ 58 :: JSON.stringify_field f ++ 44 :: JSON.stringify_members (m2 :: ms')).
    apply latin1_app; [assumption|].
    apply List.Forall_cons; [lia|]. apply latin1_app; [assumption|].
    apply List.Forall_cons; [lia | assumption].
Qed.

Lemma stringify_latin1 ms : Forall latin1_member ms -> latin1 (JSON.stringify ms).
Proof.
  intros H. unfold JSON.stringify. apply List.Forall_cons; [lia|].
  apply latin1_app; [now apply stringify_members_latin1|].
  apply List.Forall_cons; [lia | apply List.Forall_nil].
Qed.

Lemma btoa_latin1 s : latin1 s -> Base64.btoa s = Normal (Base64.encode s).
Proof.
  intros H. unfold Base64.btoa.
  replace (forallb _ s) with true; [reflexivity|].
  symmetry. apply forallb_forall. intros c Hc.
  unfold latin1 in H. rewrite List.Forall_forall in H. apply N.leb_le. now apply H.
Qed.

(** A payload of Latin-1 strings gets a token. *)
Lemma generateJWT_latin1 p :
  latin1 (Payload.id p) -> latin1 (Payload.email p) -> latin1 (Payload.name p) ->
  exists tok, generateJWT p = Normal tok.
Proof.
  intros Hid Hemail Hname. rewrite generateJWT_data.
  rewrite btoa_latin1; [cbn [bind]; eauto|].
  apply stringify_latin1. unfold payload_members.
  assert (L : forall s, latin1 (js s) -> latin1 (js s)) by auto.
  repeat (apply List.Forall_cons;
    [split; cbn [fst snd]; try assumption; try exact I;
     vm_compute; repeat (apply List.Forall_cons; [discriminate|]); apply List.Forall_nil|]).
  apply List.Forall_nil.
Qed.

(** A token is never the empty string. *)
Lemma generateJWT_nonempty p tok : generateJWT p = Normal tok -> tok <> [].
Proof.
  intros H. apply generateJWT_inv in H as (data & _ & ->). discriminate.
Qed.

(** The token [login] mints at clock [now] is valid at that clock. *)
Lemma checkAuth_after_login w a tok now :
  (- Date.max_time <= now <= Date.max_time - 24 * 60 * 60 * 1000)%Z ->
  generateJWT (account_payload a now) = Normal tok ->
  checkAuth now (set_session w (account_user a) tok) = true.
Proof.
  intros Hnow Htok. unfold checkAuth. cbn [set_session state token].
  destruct tok as [|c t] eqn:E; [now apply generateJWT_nonempty in Htok|].
  rewrite (isValidToken_generateJWT _ _ now Htok).
  unfold Date.max_time in Hnow.
  rewrite expiration_in_range;
    cbn [account_payload Payload.exp Date.gt]; unfold Date.max_time;
    [apply Z.ltb_lt|]; lia.
Qed.

(** ** Logging in with the right password *)

(** For an account whose [id], [email] and [name] are Latin-1, and a clock
    at least a day before the end of the [Date] range, [login] with the
    account's email and password succeeds, sets the session to the account,
    and [checkAuth] at the same clock is true. *)
Theorem login_latin1_account
    (toLowerCase : jsstring -> jsstring) (w : World) (a : Account.t)
    (now : Z) (email : jsstring) :
  MOCK_USERS w !! toLowerCase email = Some a ->
  latin1 (Account.id a) -> latin1 (Account.email a) -> latin1 (Account.name a) ->
  (- Date.max_time <= now <= Date.max_time - 24 * 60 * 60 * 1000)%Z ->
  exists tok,
    login toLowerCase now email (Account.password a) w =
      (set_session w (account_user a) tok,
       Normal {| success := true; message := js "Login successful" |}) /\
    state (set_session w (account_user a) tok) =
      {| user := Some (account_user a); isAuthenticated := true; token := Some tok |} /\
    checkAuth now (set_session w (account_user a) tok) = true.
Proof.
  intros Ha Hid Hemail Hname Hnow.
  destruct (generateJWT_latin1 (account_payload a now) Hid Hemail Hname) as [tok Htok].
  exists tok. split; [now apply login_success|]. split; [reflexivity|].
  now apply checkAuth_after_login.
Qed.

(** The demo account logs in under any capitalisation of its email. *)
Lemma login_latin1_account_witness :
  exists tok,
    login ascii_toLowerCase 1700000000123 (js "Demo@Example.COM") (js "demo123")
      initial_world =
      (set_session initial_world
         {| User.id := js "1"; User.email := js "demo@example.com";
            User.name := js "Demo User" |} tok,
       Normal {| success := true; message := js "Login successful" |}) /\
    checkAuth 1700000000123
      (set_session initial_world
         {| User.id := js "1"; User.email := js "demo@example.com";
            User.name := js "Demo User" |} tok) = true.
Proof.
  destruct (login_latin1_account ascii_toLowerCase initial_world
              {| Account.id := js "1"; Account.email := js "demo@example.com";
                 Account.name := js "Demo User"; Account.password := js "demo123" |}
              1700000000123 (js "Demo@Example.COM"))
    as (tok & H1 & _ & H3).
  - vm_compute. reflexivity.
  - vm_compute. repeat (apply List.Forall_cons; [discriminate|]). apply List.Forall_nil.
  - vm_compute. repeat (apply List.Forall_cons; [discriminate|]). apply List.Forall_nil.
  - vm_compute. repeat (apply List.Forall_cons; [discriminate|]). apply List.Forall_nil.
  - vm_compute. split; discriminate.
  - exists tok. split; [exact H1 | exact H3].
Defined.

(** C8 fails on the code. After [register("l@x.com", name, "pw")] with a name
    outside Latin-1 (here the letter U+0141), which throws only after it has
    stored the account, the account is in [MOCK_USERS] with password ["pw"],
    and [login("l@x.com", "pw")] throws [InvalidCharacterError] from [btoa]
    and leaves the session logged out. *)
Theorem login_non_latin1_account_throws :
  MOCK_USERS world_with_non_latin1_name !! js "l@x.com" =
    Some {| Account.id := js "2"; Account.email := js "l@x.com";
            Account.name := [321]; Account.password := js "pw" |} /\
  login ascii_toLowerCase 1700000000123 (js "l@x.com") (js "pw")
    world_with_non_latin1_name =
    (world_with_non_latin1_name, Throw InvalidCharacterError) /\
  state world_with_non_latin1_name =
    {| user := None; isAuthenticated := false; token := None |}.
Proof.
  assert (H : MOCK_USERS world_with_non_latin1_name !! js "l@x.com" =
    Some {| Account.id := js "2"; Account.email := js "l@x.com";
            Account.name := [321]; Account.password := js "pw" |})
    by (vm_compute; reflexivity).
  split; [exact H|]. split; [|reflexivity].
  apply (login_throws ascii_toLowerCase _ _ _ (js "l@x.com") _ H).
  vm_compute. reflexivity.
Qed.

(** ** Witnesses for the failure paths *)

Lemma login_failure_atomic_witness :
  let w := fst (login ascii_toLowerCase 1700000000123 (js "demo@example.com")
                  (js "demo123") initial_world) in
  isAuthenticated (state w) = true /\
  login ascii_toLowerCase 1700000050000 (js "demo@example.com") (js "wrong") w =
    (w, Normal invalid_credentials).
Proof.
  intros w. split; [vm_compute; reflexivity|].
  apply (login_failure_atomic ascii_toLowerCase w).
  intros a Ha. vm_compute in Ha. injection Ha as <-. discriminate.
Defined.

Lemma login_failure_indistinguishable_witness :
  snd (login ascii_toLowerCase 1700000000123 (js "Demo@Example.com") (js "wrong")
         initial_world) = Normal invalid_credentials /\
  snd (login ascii_toLowerCase 1700000000999 (js "nobody@example.com") (js "demo123")
         initial_world) = Normal invalid_credentials.
Proof.
  destruct (login_failure_indistinguishable ascii_toLowerCase initial_world
              initial_world
              {| Account.id := js "1"; Account.email := js "demo@example.com";
                 Account.name := js "Demo User"; Account.password := js "demo123" |}
              1700000000123 1700000000999
              (js "Demo@Example.com") (js "wrong") (js "nobody@example.com")
              (js "demo123")) as (H1 & H2 & _).
  - vm_compute. reflexivity.
  - discriminate.
  - vm_compute. reflexivity.
  - split; [exact H1 | exact H2].
Defined.

Lemma register_duplicate_witness :
  register ascii_toLowerCase 1700000000123 (js "DEMO@example.com") (js "Mallory")
    (js "other") initial_world =
  (initial_world,
   Normal {| success := false; message := js "User already exists" |}).
Proof.
  apply (register_duplicate ascii_toLowerCase initial_world
           {| Account.id := js "1"; Account.email := js "demo@example.com";
              Account.name := js "Demo User"; Account.password := js "demo123" |}).
  vm_compute. reflexivity.
Defined.

(** ** The cache key *)

Lemma app_sep_inj (sep : N) (a a' b b' : jsstring) :
  ~ In sep a -> ~ In sep a' ->
  a ++ sep :: b = a' ++ sep :: b' -> a = a' /\ b = b'.
Proof.
  revert a'. induction a as [|c a IH]; intros [|c' a'] Ha Ha' E; cbn [app] in E.
  - injection E as <-. auto.
  - injection E as -> _. destruct Ha'. now left.
  - injection E as <- _. destruct Ha. now left.
  - injection E as <- E. destruct (IH a') as [-> ->]; auto.
    + intros H. apply Ha. now right.
    + intros H. apply Ha'. now right.
Qed.

Lemma rev_app_sep (sep : N) (a b : jsstring) :
  rev (a ++ sep :: b) = rev b ++ sep :: rev a.
Proof. rewrite rev_app_distr. cbn [rev]. now rewrite <- app_assoc. Qed.

Lemma not_in_rev (sep : N) (a : jsstring) : ~ In sep a -> ~ In sep (rev a).
Proof. intros H Hin. apply H. now apply in_rev. Qed.

(** C2 (as amended). For string arguments the cache key of [searchMovies]
    is [search:] followed by the term, the type and the year as given,
    separated by colons; and two argument tuples whose type and year hold no
    colon have the same key only when they are the same tuple. *)
Theorem search_key_injective (term type year term' type' year' : jsstring) :
  ~ In 58 type -> ~ In 58 year -> ~ In 58 type' -> ~ In 58 year' ->
  Native.search_key term (Some type) (Some year) =
    js "search:" ++ term ++ [58] ++ type ++ [58] ++ year /\
  (Native.search_key term (Some type) (Some year) =
   Native.search_key term' (Some type') (Some year') ->
   term = term' /\ type = type' /\ year = year').
Proof.
  intros Ht Hy Ht' Hy'. split; [reflexivity|].
  unfold Native.search_key. cbn [ToString]. intros E.
  apply app_inv_head in E. apply (f_equal (@rev N)) in E.
  rewrite !rev_app_sep in E. rewrite <- !app_assoc in E. cbn [app] in E.
  apply app_sep_inj in E as [Ey E]; try now apply not_in_rev.
  apply app_sep_inj in E as [Ety Eterm]; try now apply not_in_rev.
  apply (f_equal (@rev N)) in Ey, Ety, Eterm.
  rewrite !rev_involutive in *. auto.
Qed.

Lemma search_key_injective_witness :
  Native.search_key (js "batman") (Some (js "movie")) (Some []) =
    js "search:batman:movie:" /\
  js "batman" = js "batman" /\ js "movie" = js "movie" /\ @nil N = [].
Proof.
  assert (H : ~ In 58 (js "movie") /\ ~ In 58 (@nil N)).
  { split; [vm_compute; intuition discriminate | exact (fun f => f)]. }
  destruct H as [Hm He].
  destruct (search_key_injective (js "batman") (js "movie") [] (js "batman")
              (js "movie") [] Hm He Hm He) as [H1 H2].
  split; [exact H1 | exact (H2 eq_refl)].
Defined.

(** C2 (as stated) fails: an [undefined] year does not give the key of the
    empty year, and two different tuples of strings can share a key. *)
Lemma search_key_not_normalized :
  Native.search_key (js "batman") (Some (js "movie")) None =
    js "search:batman:movie:undefined" /\
  Native.search_key (js "batman") (Some (js "movie")) (Some []) =
    js "search:batman:movie:" /\
  Native.search_key (js "batman") (Some (js "movie")) None <>
    Native.search_key (js "batman") (Some (js "movie")) (Some []) /\
  (js "a:b", @nil N, @nil N) <> (js "a", js "b:", @nil N) /\
  Native.search_key (js "a:b") (Some []) (Some []) =
    Native.search_key (js "a") (Some (js "b:")) (Some []).
Proof. repeat split; try reflexivity; discriminate. Qed.

(** ** The read-through cache *)

Section CacheFacts.

Context {Data : Type}.
Implicit Types (env : Native.Env Data) (net : Request -> completion Data).

Lemma cached_Some ttl now key env d :
  Native.cached ttl now key env = Some d <->
  exists entry, Native.storage env !! key = Some entry /\
    (now - Native.timestamp entry < ttl)%Z /\ d = Native.data entry.
Proof.
  unfold Native.cached. split.
  - destruct (Native.storage env !! key) as [entry|]; [|discriminate].
    destruct (Z.ltb_spec (now - Native.timestamp entry) ttl); [|discriminate].
    intros [= <-]. now exists entry.
  - intros (entry & -> & Hlt & ->). apply Z.ltb_lt in Hlt. now rewrite Hlt.
Qed.

Lemma cached_fresh ttl now key env :
  fresh ttl now key env <->
  exists entry, Native.storage env !! key = Some entry /\
    Native.cached ttl now key env = Some (Native.data entry).
Proof.
  split.
  - intros (entry & He & Hlt). exists entry. split; [assumption|].
    apply cached_Some. now exists entry.
  - intros (entry & He & Hc). apply cached_Some in Hc as (entry' & He' & Hlt & _).
    now exists entry'.
Qed.

Lemma cached_None ttl now key env :
  Native.cached ttl now key env = None <-> ~ fresh ttl now key env.
Proof.
  split.
  - intros Hc Hf. apply cached_fresh in Hf as (entry & _ & Hs). congruence.
  - intros Hf. destruct (Native.cached ttl now key env) as [d|] eqn:E; [|reflexivity].
    destruct Hf. apply cached_Some in E as (entry & He & Hlt & _). now exists entry.
Qed.

Lemma fetch_and_store_requests net now' key req failure env :
  Native.requests (fst (Native.fetch_and_store net now' key req failure env)) =
  Native.requests env ++ [req].
Proof. unfold Native.fetch_and_store. now destruct (net req). Qed.

Lemma fetch_and_store_success net now' key req failure env d :
  net req = Normal d ->
  Native.fetch_and_store net now' key req failure env =
  (stored key d now' req env, Normal d).
Proof. intros H. unfold Native.fetch_and_store. now rewrite H. Qed.


Lemma requests_grew env req : Native.requests env ++ [req] <> Native.requests env.
Proof.
  intros H. apply (f_equal (@length Request)) in H.
  rewrite length_app in H. cbn in H. lia.
Qed.

Lemma cache_or_fetch_read_through ttl key req failure net now now' env :
  read_through ttl key req net now now' env
    (cache_or_fetch ttl key req failure net now now' env).
Proof.
  unfold read_through, cache_or_fetch.
  destruct (Native.cached ttl now key env) as [d|] eqn:E.
  - assert (Hf : fresh ttl now key env).
    { apply cached_Some in E as (entry & He & Hlt & _). now exists entry. }
    split; [tauto|]. split; [|tauto].
    intros _. apply cached_fresh in Hf as (entry & He & Hc).
    exists entry. split; [assumption|]. congruence.
  - assert (Hf : ~ fresh ttl now key env) by now apply cached_None.
    rewrite fetch_and_store_requests.
    split; [|split; [tauto|]].
    + split; [tauto|]. intros H. now apply requests_grew in H.
    + intros _. split; [reflexivity|]. intros d Hd.
      now apply fetch_and_store_success.
Qed.

Lemma cached_stored ttl now key d now' req env :
  Native.cached ttl now key (stored key d now' req env) =
  if (now - now' <? ttl)%Z then Some d else None.
Proof.
  unfold Native.cached, stored. cbn [Native.storage].
  rewrite lookup_insert_eq. reflexivity.
Qed.

Lemma cache_or_fetch_window ttl key req failure :
  one_fetch_per_window ttl key req
    (fun net now now' env => cache_or_fetch (Data := Data) ttl key req failure net now now' env).
Proof.
  intros net1 net2 net3 t1 t1' t2 t2' t3 t3' env d Hmiss Hnet H2 H3 r1 r2 r3.
  assert (E1 : r1 = (stored key d t1' req env, Normal d)).
  { subst r1. unfold cache_or_fetch.
    apply cached_None in Hmiss. rewrite Hmiss.
    now apply fetch_and_store_success. }
  assert (E2 : r2 = (stored key d t1' req env, Normal d)).
  { subst r2. rewrite E1. cbn [fst]. unfold cache_or_fetch.
    rewrite cached_stored. apply Z.ltb_lt in H2. now rewrite H2. }
  assert (E3 : Native.requests (fst r3) =
               Native.requests (stored key d t1' req env) ++ [req]).
  { subst r3. rewrite E2. cbn [fst]. unfold cache_or_fetch.
    rewrite cached_stored. apply Z.ltb_ge in H3. rewrite H3.
    apply fetch_and_store_requests. }
  rewrite E1, E2, E3. cbn [fst snd stored Native.requests].
  rewrite <- app_assoc. auto.
Qed.

End CacheFacts.

(** C4. [searchMovies] and [getMovieDetails] are read-through caches with a
    freshness window of one hour and of twenty-four hours: an entry is
    served without a GET exactly when [now - storedAt < ttl]; on a miss or
    an expired entry exactly one GET is issued and a successful response is
    stored with the clock of that moment. Hence two calls with the same key
    within the window issue one GET, and a call after the window another. *)
Theorem read_through_cache {Data : Type} :
  Native.search_ttl = 3600000%Z /\
  Native.details_ttl = 86400000%Z /\
  (forall (net : Request -> completion Data) now now' env term type year,
     read_through Native.search_ttl (Native.search_key term type year)
       (Search term (or_empty type) (or_empty year)) net now now' env
       (Native.searchMovies net now now' term type year env)) /\
  (forall (net : Request -> completion Data) now now' env imdbID,
     read_through Native.details_ttl (Native.details_key imdbID)
       (Details imdbID (js "full")) net now now' env
       (Native.getMovieDetails net now now' imdbID env)) /\
  (forall term type year,
     one_fetch_per_window (Data := Data) Native.search_ttl
       (Native.search_key term type year)
       (Search term (or_empty type) (or_empty year))
       (fun net now now' env => Native.searchMovies net now now' term type year env)) /\
  (forall imdbID,
     one_fetch_per_window (Data := Data) Native.details_ttl
       (Native.details_key imdbID) (Details imdbID (js "full"))
       (fun net now now' env => Native.getMovieDetails net now now' imdbID env)).
Proof.
  split; [reflexivity|]. split; [reflexivity|].
  split; [|split; [|split]].
  - intros. apply (cache_or_fetch_read_through _ _ _ (js "Failed to fetch movies")).
  - intros. apply (cache_or_fetch_read_through _ _ _ (js "Failed to fetch movie details")).
  - intros term type year.
    apply (cache_or_fetch_window (Data := Data) _ _ _ (js "Failed to fetch movies")).
  - intros imdbID.
    apply (cache_or_fetch_window (Data := Data) _ _ _ (js "Failed to fetch movie details")).
Qed.

Lemma not_fresh_empty {Data : Type} ttl now key (log : list Request) :
  ~ fresh (Data := Data) ttl now key {| Native.storage := ∅; Native.requests := log |}.
Proof. intros (entry & H & _). cbn in H. now rewrite lookup_empty in H. Qed.

(** [searchMovies("batman", "", "")] on an empty cache, again just inside the
    hour, and again when the hour has passed: one GET, then a second. *)
Lemma read_through_cache_witness :
  let net := fun _ : Request => Normal (js "{}") in
  let env := {| Native.storage := ∅; Native.requests := [] |} in
  let call := fun now now' e =>
    Native.searchMovies net now now' (js "batman") (Some []) (Some []) e in
  let r1 := call 1000%Z 1200%Z env in
  let r2 := call (1200 + 3599999)%Z (1200 + 3600100)%Z (fst r1) in
  let r3 := call (1200 + 3600000)%Z (1200 + 3600200)%Z (fst r2) in
  Native.requests (fst r2) = [Search (js "batman") [] []] /\
  snd r2 = Normal (js "{}") /\
  Native.requests (fst r3) = [Search (js "batman") [] []; Search (js "batman") [] []].
Proof.
  intros net env call r1 r2 r3.
  destruct (@read_through_cache jsstring) as (_ & _ & _ & _ & Hwin & _).
  destruct (Hwin (js "batman") (Some []) (Some []) net net net
              1000%Z 1200%Z (1200 + 3599999)%Z (1200 + 3600100)%Z
              (1200 + 3600000)%Z (1200 + 3600200)%Z env (js "{}"))
    as (_ & H2 & H3 & H4).
  - apply not_fresh_empty.
  - reflexivity.
  - reflexivity.
  - discriminate.
  - split; [exact H2|]. split; [exact H3 | exact H4].
Defined.

(** ** Failed fetches *)



(** ** Registration, and the store end to end *)

Lemma get_property_undefined (users : gmap jsstring Account.t) key :
  users !! key = None -> ~ In key Object_prototype ->
  get_property users key = Undefined.
Proof.
  intros H Hp. unfold get_property. rewrite H.
  rewrite bool_decide_eq_false_2; [reflexivity|].
  intros Hin. apply Hp. now apply list_elem_of_In.
Qed.

(** Registering an email that has no account, is not a name objects inherit,
    and is Latin-1 like the display name, at a clock at least a day before the
    end of the [Date] range: the account is stored under the lower-cased
    email with the next id, the session is set to it, [register] returns
    success, and [checkAuth] at the same clock is true. *)
Theorem register_new_account
    (toLowerCase : jsstring -> jsstring) (w : World) (now : Z)
    (email name password : jsstring) :
  MOCK_USERS w !! toLowerCase email = None ->
  ~ In (toLowerCase email) Object_prototype ->
  latin1 (toLowerCase email) -> latin1 name ->
  (- Date.max_time <= now <= Date.max_time - 24 * 60 * 60 * 1000)%Z ->
  let a := {| Account.id := Number.toString (Z.of_nat (size (MOCK_USERS w)) + 1);
              Account.email := toLowerCase email;
              Account.name := name;
              Account.password := password |} in
  let w' := {| MOCK_USERS := <[toLowerCase email := a]> (MOCK_USERS w);
               state := state w |} in
  exists tok,
    register toLowerCase now email name password w =
      (set_session w' (account_user a) tok,
       Normal {| success := true; message := js "Registration successful" |}) /\
    MOCK_USERS (set_session w' (account_user a) tok) !! toLowerCase email = Some a /\
    checkAuth now (set_session w' (account_user a) tok) = true.
Proof.
  intros Hnone Hproto Hemail Hname Hnow a w'.
  destruct (generateJWT_latin1 (account_payload a now)) as [tok Htok];
    [apply toString_latin1 | exact Hemail | exact Hname |].
  exists tok. split; [|split].
  - unfold register. rewrite (get_property_undefined _ _ Hnone Hproto).
    fold a. fold w'.
    change (generateJWT _) with (generateJWT (account_payload a now)).
    now rewrite Htok.
  - cbn [set_session MOCK_USERS w']. apply lookup_insert_eq.
  - now apply checkAuth_after_login.
Qed.

Lemma register_new_account_witness :
  exists tok,
    snd (register ascii_toLowerCase 1700000000123 (js "New@X.com") (js "New User")
           (js "pw1") initial_world) =
      Normal {| success := true; message := js "Registration successful" |} /\
    token (state (fst (register ascii_toLowerCase 1700000000123 (js "New@X.com")
                         (js "New User") (js "pw1") initial_world))) = Some tok /\
    isValidToken 1700000000123 tok = true.
Proof.
  assert (L : forall s, Forall (fun c => c <= 255) (js s) -> latin1 (js s)) by auto.
  destruct (register_new_account ascii_toLowerCase initial_world 1700000000123
              (js "New@X.com") (js "New User") (js "pw1"))
    as (tok & H1 & _ & H3).
  - vm_compute. reflexivity.
  - vm_compute. intuition discriminate.
  - vm_compute. repeat (apply List.Forall_cons; [discriminate|]). apply List.Forall_nil.
  - vm_compute. repeat (apply List.Forall_cons; [discriminate|]). apply List.Forall_nil.
  - vm_compute. split; discriminate.
  - exists tok. rewrite H1. split; [reflexivity|]. split; [reflexivity|].
    destruct tok as [|c t]; [discriminate H3 | exact H3].
Defined.

(** The scenario of the specification: register [new@x.com] with [pw1]
    succeeds and logs in; after [logout], [checkAuth] is false; logging in
    with [pw1] succeeds; logging in with a wrong password fails with the
    result a login with an unknown email gets. *)
Theorem end_to_end_scenario :
  let now := 1700000000123%Z in
  let r1 := register ascii_toLowerCase now (js "new@x.com") (js "New User")
              (js "pw1") initial_world in
  let w2 := logout (fst r1) in
  let r3 := login ascii_toLowerCase now (js "new@x.com") (js "pw1") w2 in
  let r4 := login ascii_toLowerCase now (js "new@x.com") (js "wrong") (fst r3) in
  let r5 := login ascii_toLowerCase now (js "nobody@x.com") (js "pw1") (fst r3) in
  snd r1 = Normal {| success := true; message := js "Registration successful" |} /\
  checkAuth now (fst r1) = true /\
  checkAuth now w2 = false /\
  snd r3 = Normal {| success := true; message := js "Login successful" |} /\
  checkAuth now (fst r3) = true /\
  snd r4 = Normal invalid_credentials /\
  snd r5 = snd r4 /\
  fst r4 = fst r3.
Proof. vm_compute. repeat split. Qed.

(** ** The codecs on their own *)

(** [btoa] accepts exactly the Latin-1 strings, and [atob] gives back what
    [btoa] encoded. *)
Theorem atob_btoa_roundtrip (s : jsstring) :
  (latin1 s -> exists t, Base64.btoa s = Normal t /\ Base64.atob t = Normal s) /\
  (~ latin1 s -> Base64.btoa s = Throw InvalidCharacterError).
Proof.
  split.
  - intros H. exists (Base64.encode s). split; [now apply btoa_latin1|].
    now apply atob_encode.
  - intros H. unfold Base64.btoa. destruct (forallb _ s) eqn:E; [|reflexivity].
    destruct H. apply List.Forall_forall. intros c Hc.
    rewrite forallb_forall in E. apply N.leb_le. now apply E.
Qed.


(** ** The platform model on examples *)

Example atob_examples :
  Base64.atob (js "YQ==") = Normal (js "a") /\
  Base64.atob (js "YQ") = Normal (js "a") /\
  Base64.atob (js " Y W I = ") = Normal (js "ab") /\
  Base64.atob (js "YQ=") = Throw InvalidCharacterError /\
  Base64.atob (js "Y") = Throw InvalidCharacterError /\
  Base64.atob (js "a.b") = Throw InvalidCharacterError /\
  Base64.btoa (js "mock-signature") = Normal (js "bW9jay1zaWduYXR1cmU=").
Proof. repeat split. Qed.

Example parse_examples :
  JSON.parse (js " [1, -2.5e3, true, null, [], {}] ") =
    Normal (JSON.Arr [JSON.Num (Dec 1 0); JSON.Num (Dec (-25) 2); JSON.Bool true;
                      JSON.Null; JSON.Arr []; JSON.Obj []]) /\
  JSON.parse (js "[1,]") = Throw SyntaxError /\
  JSON.parse (js "01") = Throw SyntaxError /\
  JSON.parse (js "1 2") = Throw SyntaxError /\
  JSON.parse (js "{1:2}") = Throw SyntaxError /\
  JSON.parse (js "nul") = Throw SyntaxError /\
  JSON.parse [] = Throw SyntaxError.
Proof. repeat split. Qed.

Example of_string_examples :
  Number.of_string (js " 12 ") = Dec 12 0 /\
  Number.of_string [] = Dec 0 0 /\
  Number.of_string (js "0x1f") = Dec 31 0 /\
  Number.of_string (js "1.5e3") = Dec 15 2 /\
  Number.of_string (js "-Infinity") = Infinity true /\
  Number.of_string (js "12px") = NaN /\
  Number.of_string (js "1,2") = NaN.
Proof. repeat split. Qed.

(** Tokens that are rejected, each for a different reason: no second
    segment; a second segment that is not base64; not JSON; the payload
    [null]; no [exp]; an [exp] in the past; an [exp] written twice, the
    last one in the past; an [exp] beyond the range of [Date]. And two that
    are accepted because [exp] converts to a number: a string of digits, and
    a one-element array. *)
Example isValidToken_examples :
  let now := 1700000000000%Z in
  isValidToken now [] = false /\
  isValidToken now (js "abc") = false /\
  isValidToken now (js "a.b.c") = false /\
  isValidToken now (js "a.eyJleHAiOjk5OTk5OTk5OTk=.c") = false /\
  isValidToken now (js "a.bnVsbA==.c") = false /\
  isValidToken now (js "a.W10=.c") = false /\
  isValidToken now (js "a.eyJleHAiOjF9.c") = false /\
  isValidToken now (js "a.eyJleHAiOjk5OTk5OTk5OTksImV4cCI6MX0=.c") = false /\
  isValidToken now (js "a.eyJleHAiOjFlMTN9.c") = false /\
  isValidToken now (js "a.eyJleHAiOiI5OTk5OTk5OTk5In0=.c") = true /\
  isValidToken now (js "a.eyJleHAiOls5OTk5OTk5OTk5XX0=.c") = true.
Proof. vm_compute. repeat split. Qed.

(** * More of the code: the store over time, and its callers *)

(** ** What every history of the store preserves *)

Section StoreHistories.

Variable toLowerCase : jsstring -> jsstring.

Lemma login_accounts now email password w :
  MOCK_USERS (fst (login toLowerCase now email password w)) = MOCK_USERS w.
Proof.
  unfold login. destruct (get_property _ _) as [a| |]; try reflexivity.
  destruct (decide _); [|reflexivity]. now destruct (generateJWT _).
Qed.

Lemma get_property_Undefined (users : gmap jsstring Account.t) key :
  get_property users key = Undefined -> users !! key = None.
Proof. unfold get_property. now destruct (users !! key). Qed.

Lemma get_property_Own (users : gmap jsstring Account.t) key a :
  get_property users key = Own a -> users !! key = Some a.
Proof.
  unfold get_property. destruct (users !! key); [congruence|].
  now destruct (bool_decide _).
Qed.

Lemma register_accounts now email name password w :
  MOCK_USERS (fst (register toLowerCase now email name password w)) = MOCK_USERS w \/
  (MOCK_USERS w !! toLowerCase email = None /\
   MOCK_USERS (fst (register toLowerCase now email name password w)) =
   <[toLowerCase email := new_account toLowerCase w email name password]> (MOCK_USERS w)).
Proof.
  unfold register. destruct (get_property _ _) as [a| |] eqn:E; auto.
  right. split; [now apply get_property_Undefined|].
  now destruct (generateJWT _).
Qed.

Lemma call_keeps_account w c key a :
  MOCK_USERS w !! key = Some a ->
  MOCK_USERS (call toLowerCase w c) !! key = Some a.
Proof.
  intros H. destruct c as [now email password|now email name password|]; cbn [call].
  - now rewrite login_accounts.
  - destruct (register_accounts now email name password w) as [-> | [Hnone ->]];
      [assumption|].
    rewrite lookup_insert_ne; [assumption|]. intros <-. congruence.
  - exact H.
Qed.

Lemma after_keeps_account calls : forall w key a,
  MOCK_USERS w !! key = Some a ->
  MOCK_USERS (after toLowerCase calls w) !! key = Some a.
Proof.
  induction calls as [|c calls IH]; intros w key a H; [exact H|].
  apply IH. now apply call_keeps_account.
Qed.

Lemma toString_inj z z' : Number.toString z = Number.toString z' -> z = z'.
Proof.
  intros H. pose proof (of_json_literal_toString z) as E.
  rewrite H, of_json_literal_toString in E. congruence.
Qed.

Lemma call_accounts_consistent w c :
  accounts_consistent w -> accounts_consistent (call toLowerCase w c).
Proof.
  intros (Hk & Hid & Hinj).
  assert (Hsame : forall w', MOCK_USERS w' = MOCK_USERS w -> accounts_consistent w').
  { intros w' E. unfold accounts_consistent. rewrite E. auto. }
  destruct c as [now email password|now email name password|]; cbn [call].
  - apply Hsame, login_accounts.
  - destruct (register_accounts now email name password w) as [E | [Hnone E]];
      [now apply Hsame|].
    unfold accounts_consistent. rewrite E.
    rewrite (map_size_insert_None _ _ _ Hnone).
    set (k := toLowerCase email) in *.
    set (a0 := new_account toLowerCase w email name password).
    assert (Hnew : Account.id a0 = Number.toString (Z.of_nat (S (size (MOCK_USERS w))))).
    { unfold a0, new_account. cbn [Account.id]. f_equal. lia. }
    assert (Hfresh : forall key a, MOCK_USERS w !! key = Some a -> Account.id a <> Account.id a0).
    { intros key a Ha Heq. destruct (Hid key a Ha) as (n & Hn & Hn').
      rewrite Hnew, Hn' in Heq. apply toString_inj in Heq. lia. }
    split; [|split].
    + intros key a. rewrite lookup_insert. destruct (decide (k = key)) as [<-|_].
      * now intros [= <-].
      * apply Hk.
    + intros key a. rewrite lookup_insert. destruct (decide (k = key)) as [<-|_].
      * intros [= <-]. exists (S (size (MOCK_USERS w))). split; [lia | exact Hnew].
      * intros Ha. destruct (Hid key a Ha) as (n & Hn & Hn'). exists n. split; [lia|assumption].
    + intros key key' a a'. rewrite !lookup_insert.
      destruct (decide (k = key)) as [<-|_], (decide (k = key')) as [<-|_]; try reflexivity.
      * intros [= <-] Ha' Heq. symmetry in Heq. now destruct (Hfresh key' a' Ha').
      * intros Ha [= <-] Heq. now destruct (Hfresh key a Ha).
      * apply Hinj.
  - now apply Hsame.
Qed.

Lemma initial_accounts_consistent : accounts_consistent initial_world.
Proof.
  unfold accounts_consistent, initial_world. cbn [MOCK_USERS].
  rewrite map_size_singleton.
  split; [|split].
  - intros key a H. apply lookup_singleton_Some in H as [<- <-]. reflexivity.
  - intros key a H. apply lookup_singleton_Some in H as [<- <-].
    exists 1%nat. split; [lia | reflexivity].
  - intros key key' a a' H H' _.
    apply lookup_singleton_Some in H as [<- _].
    apply lookup_singleton_Some in H' as [<- _]. reflexivity.
Qed.

Lemma after_accounts_consistent calls : forall w,
  accounts_consistent w -> accounts_consistent (after toLowerCase calls w).
Proof.
  induction calls as [|c calls IH]; intros w H; [exact H|].
  apply IH. now apply call_accounts_consistent.
Qed.

Lemma session_consistent_accounts w w' :
  session_consistent w -> state w' = state w ->
  (forall key a, MOCK_USERS w !! key = Some a -> MOCK_USERS w' !! key = Some a) ->
  session_consistent w'.
Proof.
  intros [H | (key & a & now & tok & Ha & Htok & Hs)] Hstate Hacc.
  - left. congruence.
  - right. exists key, a, now, tok. split; [now apply Hacc|]. split; [assumption|congruence].
Qed.

Lemma call_session_consistent w c :
  session_consistent w -> session_consistent (call toLowerCase w c).
Proof.
  intros H. destruct c as [now email password|now email name password|]; cbn [call].
  - unfold login. destruct (get_property _ _) as [a| |] eqn:E; try exact H.
    destruct (decide _); [|exact H].
    fold (account_payload a now). destruct (generateJWT _) as [tok|] eqn:Etok; [|exact H].
    right. exists (toLowerCase email), a, now, tok.
    split; [now apply get_property_Own|]. split; [assumption|reflexivity].
  - unfold register. destruct (get_property _ _) as [a| |] eqn:E; try exact H.
    apply get_property_Undefined in E.
    fold (new_account toLowerCase w email name password).
    change (generateJWT _)
      with (generateJWT (account_payload (new_account toLowerCase w email name password) now)).
    destruct (generateJWT _) as [tok|] eqn:Etok; cbn [fst].
    + right. exists (toLowerCase email), (new_account toLowerCase w email name password), now, tok.
      split; [apply lookup_insert_eq|]. split; [assumption|reflexivity].
    + eapply session_consistent_accounts; [exact H|reflexivity|].
      intros key a Ha. cbn [MOCK_USERS]. rewrite lookup_insert_ne; [assumption|].
      intros <-. congruence.
  - now left.
Qed.

Lemma after_session_consistent calls : forall w,
  session_consistent w -> session_consistent (after toLowerCase calls w).
Proof.
  induction calls as [|c calls IH]; intros w H; [exact H|].
  apply IH. now apply call_session_consistent.
Qed.

End StoreHistories.

(** After any history of logins, registrations and logouts from the initial
    store, whether the calls returned or threw, the session is either empty
    or holds a stored account's fields with a token minted for it. *)
Theorem session_always_consistent
    (toLowerCase : jsstring -> jsstring) (calls : list Call) :
  session_consistent (after toLowerCase calls initial_world).
Proof. apply after_session_consistent. now left. Qed.

(** After any such history every account is filed under its own email and
    the ids of the accounts are pairwise distinct. *)
Theorem accounts_always_consistent
    (toLowerCase : jsstring -> jsstring) (calls : list Call) :
  accounts_consistent (after toLowerCase calls initial_world).
Proof. apply after_accounts_consistent, initial_accounts_consistent. Qed.

(** No history of calls removes an account or changes any of its fields,
    its password included. *)
Theorem accounts_never_change
    (toLowerCase : jsstring -> jsstring) (calls : list Call) (w : World)
    (key : jsstring) (a : Account.t) :
  MOCK_USERS w !! key = Some a ->
  MOCK_USERS (after toLowerCase calls w) !! key = Some a.
Proof. apply after_keeps_account. Qed.

Lemma accounts_never_change_witness :
  MOCK_USERS
    (after ascii_toLowerCase
       [CallRegister 1700000000123 (js "demo@example.com") (js "Mallory") (js "x");
        CallRegister 1700000000456 (js "new@x.com") (js "New") (js "pw1");
        CallLogin 1700000000789 (js "demo@example.com") (js "demo123");
        CallLogout]
       initial_world) !! js "demo@example.com" =
  Some {| Account.id := js "1"; Account.email := js "demo@example.com";
          Account.name := js "Demo User"; Account.password := js "demo123" |}.
Proof.
  apply (accounts_never_change ascii_toLowerCase). vm_compute. reflexivity.
Defined.

(** ** The shape and the lifetime of a minted token *)




Section SessionLifetime.

Variable toLowerCase : jsstring -> jsstring.

(** What a [login] that reports success has done. *)
Lemma login_success_inv now email password w r :
  snd (login toLowerCase now email password w) = Normal r -> success r = true ->
  exists a tok,
    MOCK_USERS w !! toLowerCase email = Some a /\
    Account.password a = password /\
    generateJWT (account_payload a now) = Normal tok /\
    fst (login toLowerCase now email password w) = set_session w (account_user a) tok.
Proof.
  unfold login. destruct (get_property _ _) as [a| |] eqn:E;
    try (cbn [snd]; intros [= <-]; discriminate).
  destruct (decide _) as [Hpw|_]; [|cbn [snd]; intros [= <-]; discriminate].
  fold (account_payload a now).
  destruct (generateJWT _) as [tok|] eqn:Etok; [|discriminate].
  intros _ _. exists a, tok. split; [now apply get_property_Own|]. auto.
Qed.

(** What a [register] that reports success has done. *)
Lemma register_success_inv now email name password w r :
  snd (register toLowerCase now email name password w) = Normal r -> success r = true ->
  exists tok,
    MOCK_USERS w !! toLowerCase email = None /\
    generateJWT (account_payload (new_account toLowerCase w email name password) now)
      = Normal tok /\
    fst (register toLowerCase now email name password w) =
    set_session
      {| MOCK_USERS := <[toLowerCase email := new_account toLowerCase w email name password]>
                         (MOCK_USERS w);
         state := state w |}
      (account_user (new_account toLowerCase w email name password)) tok.
Proof.
  unfold register. destruct (get_property _ _) as [a| |] eqn:E;
    try (cbn [snd]; intros [= <-]; discriminate).
  fold (new_account toLowerCase w email name password).
  change (generateJWT _)
    with (generateJWT (account_payload (new_account toLowerCase w email name password) now)).
  destruct (generateJWT _) as [tok|] eqn:Etok; [|discriminate].
  intros _ _. exists tok. split; [now apply get_property_Undefined|]. auto.
Qed.

Lemma checkAuth_session w a tok now t :
  clock_in_range now ->
  generateJWT (account_payload a now) = Normal tok ->
  checkAuth t (set_session w (account_user a) tok) = (t <? expiry_of now)%Z.
Proof.
  intros Hnow Htok. unfold checkAuth. cbn [set_session state token].
  destruct tok as [|c tk] eqn:E; [now apply generateJWT_nonempty in Htok|].
  rewrite (isValidToken_generateJWT _ _ t Htok).
  unfold clock_in_range, Date.max_time in Hnow.
  rewrite expiration_in_range;
    cbn [account_payload Payload.exp Date.gt]; unfold Date.max_time, expiry_of;
    [reflexivity | lia].
Qed.

End SessionLifetime.

(** Whenever [login] or [register] reports success at a clock [now] (at least
    a day before the end of the range of dates), the session it leaves passes
    [checkAuth] at exactly the clocks before [floor(now / 1000) * 1000] plus
    24 hours: for 24 hours less the milliseconds of [now], so always for
    23 h 59 min 59 s and never for 24 h. *)
Theorem session_lifetime
    (toLowerCase : jsstring -> jsstring) (w : World) (now t : Z)
    (email name password : jsstring) (r : Result) :
  clock_in_range now ->
  success r = true ->
  (snd (login toLowerCase now email password w) = Normal r ->
   checkAuth t (fst (login toLowerCase now email password w))
     = (t <? expiry_of now)%Z) /\
  (snd (register toLowerCase now email name password w) = Normal r ->
   checkAuth t (fst (register toLowerCase now email name password w))
     = (t <? expiry_of now)%Z) /\
  (now + 86399000 < expiry_of now <= now + 86400000)%Z.
Proof.
  intros Hnow Hr. split; [|split].
  - intros H. destruct (login_success_inv toLowerCase _ _ _ _ _ H Hr)
      as (a & tok & _ & _ & Htok & ->).
    now apply checkAuth_session.
  - intros H. destruct (register_success_inv toLowerCase _ _ _ _ _ _ H Hr)
      as (tok & _ & Htok & ->).
    now apply checkAuth_session.
  - unfold expiry_of. lia.
Qed.

Lemma session_lifetime_witness :
  checkAuth (1700000000123 + 86399876) demo_session = true /\
  checkAuth (1700000000123 + 86399877) demo_session = false.
Proof.
  assert (Hc : clock_in_range 1700000000123) by (vm_compute; split; discriminate).
  destruct (session_lifetime ascii_toLowerCase initial_world 1700000000123
              (1700000000123 + 86399876) (js "demo@example.com") [] (js "demo123")
              {| success := true; message := js "Login successful" |} Hc eq_refl)
    as (H1 & _ & _).
  destruct (session_lifetime ascii_toLowerCase initial_world 1700000000123
              (1700000000123 + 86399877) (js "demo@example.com") [] (js "demo123")
              {| success := true; message := js "Login successful" |} Hc eq_refl)
    as (H2 & _ & _).
  split.
  - unfold demo_session. rewrite H1; [reflexivity | vm_compute; reflexivity].
  - unfold demo_session. rewrite H2; [reflexivity | vm_compute; reflexivity].
Defined.

(** ** Names outside Latin-1 *)

Lemma quote_units_copies c s :
  255 < c -> JSON.is_high_surrogate c = false -> JSON.is_low_surrogate c = false ->
  In c s -> In c (JSON.quote_units s).
Proof.
  intros Hc Hh Hl.
  assert (Hesc : JSON.escape_unit c = [c]).
  { unfold JSON.escape_unit.
    repeat match goal with
    | |- context [if c =? ?k then _ else _] =>
        destruct (N.eqb_spec c k) as [->|_]; [lia|]
    end.
    rewrite Hh, Hl. destruct (N.ltb_spec c 32); [lia|]. reflexivity. }
  assert (H : forall n s, (length s <= n)%nat -> In c s -> In c (JSON.quote_units s)).
  2:{ apply (H (length s)). lia. }
  clear s. induction n as [|n IH]; intros [|x r] Hlen Hin;
    try (now destruct Hin); simpl in Hlen.
  cbn [JSON.quote_units].
  destruct (JSON.is_high_surrogate x) eqn:Hx.
  - assert (Hne : x <> c) by congruence.
    destruct Hin as [-> | Hin]; [congruence|].
    destruct r as [|d r']; [now destruct Hin|].
    destruct (JSON.is_low_surrogate d) eqn:Hd.
    + destruct Hin as [-> | Hin]; [congruence|].
      right. right. apply IH; [simpl in Hlen; lia | assumption].
    + apply in_or_app. right. apply IH; [lia | assumption].
  - destruct Hin as [-> | Hin].
    + rewrite Hesc. now left.
    + apply in_or_app. right. apply IH; [lia | assumption].
Qed.

Lemma btoa_outside_latin1 (s : jsstring) c :
  In c s -> 255 < c -> Base64.btoa s = Throw InvalidCharacterError.
Proof.
  intros Hin Hc. unfold Base64.btoa. destruct (forallb _ s) eqn:E; [|reflexivity].
  rewrite forallb_forall in E. apply E, N.leb_le in Hin. lia.
Qed.

(** A payload whose name holds a unit outside Latin-1 gets no token. *)
Lemma generateJWT_outside_latin1 p :
  outside_latin1 (Payload.name p) -> generateJWT p = Throw InvalidCharacterError.
Proof.
  intros (c & Hin & Hc & Hh & Hl). rewrite generateJWT_data.
  rewrite (btoa_outside_latin1 _ c); [reflexivity| |assumption].
  unfold JSON.stringify, payload_members. right. apply in_or_app. left.
  cbn [JSON.stringify_members JSON.stringify_field].
  do 2 (apply in_or_app; right; right; apply in_or_app; right; right).
  apply in_or_app; right; right. apply in_or_app. left.
  unfold JSON.quote. right. apply in_or_app. left.
  now apply quote_units_copies.
Qed.

(** Registering a new email with a display name that holds a code unit
    outside Latin-1 (any letter beyond U+00FF) throws InvalidCharacterError
    after the account has been stored: the session is untouched, the account
    is in the table, a second registration of the email is refused as a
    duplicate, and a login with the right password throws as well. *)
Theorem register_outside_latin1
    (toLowerCase : jsstring -> jsstring) (w : World) (now now' : Z)
    (email name password : jsstring) :
  MOCK_USERS w !! toLowerCase email = None ->
  ~ In (toLowerCase email) Object_prototype ->
  outside_latin1 name ->
  let a := new_account toLowerCase w email name password in
  let w' := {| MOCK_USERS := <[toLowerCase email := a]> (MOCK_USERS w);
               state := state w |} in
  register toLowerCase now email name password w = (w', Throw InvalidCharacterError) /\
  register toLowerCase now' email name password w' =
    (w', Normal {| success := false; message := js "User already exists" |}) /\
  login toLowerCase now' email password w' = (w', Throw InvalidCharacterError).
Proof.
  intros Hnone Hproto Hname a w'.
  assert (Hthrow : forall t, generateJWT (account_payload a t) = Throw InvalidCharacterError).
  { intros t. now apply generateJWT_outside_latin1. }
  assert (Ha : MOCK_USERS w' !! toLowerCase email = Some a) by apply lookup_insert_eq.
  split; [|split].
  - unfold register. rewrite (get_property_undefined _ _ Hnone Hproto).
    fold (new_account toLowerCase w email name password). fold a.
    change (generateJWT _) with (generateJWT (account_payload a now)).
    now rewrite Hthrow.
  - unfold register. now rewrite (get_property_own _ _ _ Ha).
  - apply (login_throws toLowerCase w' a now' email _ Ha (Hthrow now')).
Qed.

Lemma register_outside_latin1_witness :
  register ascii_toLowerCase 1700000000123 (js "l@x.com") [321] (js "pw") initial_world =
    (world_with_non_latin1_name, Throw InvalidCharacterError) /\
  snd (register ascii_toLowerCase 1700000000999 (js "l@x.com") [321] (js "pw")
         world_with_non_latin1_name) =
    Normal {| success := false; message := js "User already exists" |}.
Proof.
  assert (H1 : MOCK_USERS initial_world !! ascii_toLowerCase (js "l@x.com") = None)
    by (vm_compute; reflexivity).
  assert (H2 : ~ In (ascii_toLowerCase (js "l@x.com")) Object_prototype)
    by (vm_compute; intuition discriminate).
  assert (H3 : outside_latin1 [321]).
  { exists 321. split; [now left|]. split; [reflexivity|]. split; reflexivity. }
  destruct (register_outside_latin1 ascii_toLowerCase initial_world 1700000000123
              1700000000999 (js "l@x.com") [321] (js "pw") H1 H2 H3) as (R1 & R2 & _).
  split; [exact R1|].
  change world_with_non_latin1_name
    with {| MOCK_USERS := <[ascii_toLowerCase (js "l@x.com") :=
                              new_account ascii_toLowerCase initial_world (js "l@x.com")
                                [321] (js "pw")]> (MOCK_USERS initial_world);
            state := state initial_world |}.
  now rewrite R2.
Defined.

(** ** The middleware *)

Lemma isPublicPath_spec path :
  bool_decide (path = js "/auth/login") || bool_decide (path = js "/auth/register") = true
  <-> public_path path.
Proof.
  unfold public_path. rewrite orb_true_iff, !bool_decide_eq_true. reflexivity.
Qed.

Lemma get_optional_not_null key st :
  st <> JSON.Null -> get_optional key (Some st) = get key st.
Proof. destruct st; intros H; congruence || reflexivity. Qed.


Lemma isValidToken_minted a now tok t :
  clock_in_range now ->
  generateJWT (account_payload a now) = Normal tok ->
  isValidToken t tok = (t <? expiry_of now)%Z.
Proof.
  intros Hnow Htok.
  rewrite (isValidToken_generateJWT _ _ t Htok).
  unfold clock_in_range, Date.max_time in Hnow.
  rewrite expiration_in_range;
    cbn [account_payload Payload.exp Date.gt]; unfold Date.max_time, expiry_of;
    [reflexivity | lia].
Qed.


(** A cookie that holds a token minted by [generateJWT] for an account at
    the clock [now0] redirects the login and register pages to [/] at
    every clock before the token expires, and lets them through from the
    expiry on. *)
Theorem middleware_minted_token
    (a : Account.t) (now0 now : Z) (tok path text : jsstring)
    (parsed st : JSON.value) :
  clock_in_range now0 ->
  generateJWT (account_payload a now0) = Normal tok ->
  public_path path ->
  JSON.parse text = Normal parsed ->
  get (js "state") parsed = Normal (Some st) ->
  get (js "token") st = Normal (Some (JSON.Str tok)) ->
  Middleware.middleware now path (Some text)
  = if (now <? expiry_of now0)%Z then Middleware.redirect (js "/")
    else Middleware.next.
Proof.
  intros Hnow Htok Hp Hparse Hst Hget.
  unfold Middleware.middleware.
  apply isPublicPath_spec in Hp. rewrite Hp.
  destruct text as [|c text]; [discriminate Hparse|].
  unfold Middleware.isAuthenticated_try. rewrite Hparse. cbn [bind].
  rewrite Hst. cbn [bind].
  assert (Hn : st <> JSON.Null) by (intros ->; discriminate).
  rewrite (get_optional_not_null _ _ Hn), Hget. cbn [bind isValidToken_value].
  destruct tok as [|d tk] eqn:E; [now apply generateJWT_nonempty in Htok|].
  cbn [truthy]. rewrite (isValidToken_minted _ _ _ now Hnow Htok).
  now destruct (now <? expiry_of now0)%Z.
Qed.

Lemma middleware_minted_token_witness :
  exists tok,
    generateJWT
      (account_payload
         {| Account.id := js "1"; Account.email := js "demo@example.com";
            Account.name := js "Demo User"; Account.password := js "demo123" |}
         1700000000123) = Normal tok /\
    Middleware.middleware (1700000000123 + 86399876) (js "/auth/login")
      (Some (envelope tok)) = Middleware.redirect (js "/") /\
    Middleware.middleware (1700000000123 + 86399877) (js "/auth/register")
      (Some (envelope tok)) = Middleware.next.
Proof.
  set (a := {| Account.id := js "1"; Account.email := js "demo@example.com";
               Account.name := js "Demo User"; Account.password := js "demo123" |}).
  destruct (generateJWT (account_payload a 1700000000123)) as [tok|e] eqn:Htok;
    [|vm_compute in Htok; discriminate Htok].
  exists tok. split; [reflexivity|].
  assert (Hc : clock_in_range 1700000000123) by (vm_compute; split; discriminate).
  assert (Hparse : JSON.parse (envelope tok)
                   = Normal (JSON.Obj
                       [(js "state",
                         JSON.Obj [(js "isAuthenticated", JSON.Bool true);
                                   (js "token", JSON.Str tok)]);
                        (js "version", JSON.Num (Dec 0 0))])).
  { vm_compute in Htok. injection Htok as <-. vm_compute. reflexivity. }
  split.
  - rewrite (middleware_minted_token a 1700000000123 (1700000000123 + 86399876)
               tok (js "/auth/login") (envelope tok) _ _ Hc Htok
               (or_introl eq_refl) Hparse eq_refl eq_refl).
    reflexivity.
  - rewrite (middleware_minted_token a 1700000000123 (1700000000123 + 86399877)
               tok (js "/auth/register") (envelope tok) _ _ Hc Htok
               (or_intror eq_refl) Hparse eq_refl eq_refl).
    reflexivity.
Defined.

(** ** The toast hook *)

Lemma snoc_split {A} (b : list A) (r : A) (a evs : list A) (e : A) :
  b ++ r :: a = evs ++ [e] ->
  (a = [] /\ b = evs /\ r = e) \/
  (exists a', a = a' ++ [e] /\ evs = b ++ r :: a').
Proof.
  intros H. destruct a as [|x a0] using List.rev_ind.
  - left. apply app_inj_tail in H as [-> ->]. auto.
  - right. clear IHa0.
    change (b ++ r :: a0 ++ [x]) with (b ++ (r :: a0) ++ [x]) in H.
    rewrite app_assoc in H. apply app_inj_tail in H as [<- ->].
    now exists a0.
Qed.

Lemma run_snoc events e :
  Toast.run (events ++ [e]) = Toast.step (Toast.run events) e.
Proof. unfold Toast.run. now rewrite fold_left_app. Qed.

(** A toast is in the list after a sequence of calls of [toast] and timer
    expiries exactly when some call raised it and no timer of its id has
    fired since: every toast leaves the list when its own timer fires, and
    a timer removes no toast with another id. *)
Theorem toast_on_screen (events : list Toast.Event) (x : Toast.t) :
  In x (Toast.run events) <->
  exists before later now title description variant,
    events = before ++ Toast.Raise now title description variant :: later /\
    x = Toast.make now title description variant /\
    ~ In (Toast.Expire now) later.
Proof.
  induction events as [|e evs IH] using List.rev_ind.
  - split; [intros []|].
    intros (b & a & now & t & d & v & H & _). now destruct b.
  - rewrite run_snoc. destruct e as [now0 t0 d0 v0|i]; cbn [Toast.step].
    + unfold Toast.toast. rewrite in_app_iff. split.
      * intros [H | [<- | []]].
        -- apply IH in H as (b & a & now & t & d & v & -> & -> & Hn).
           exists b, (a ++ [Toast.Raise now0 t0 d0 v0]), now, t, d, v.
           split; [now rewrite <- app_assoc|]. split; [reflexivity|].
           rewrite in_app_iff. intros [H | [H | []]]; [auto | discriminate H].
        -- exists evs, [], now0, t0, d0, v0. auto.
      * intros (b & a & now & t & d & v & H & -> & Hn).
        symmetry in H. apply snoc_split in H as [(-> & -> & [= -> -> -> ->]) | (a' & -> & ->)].
        -- right. now left.
        -- left. apply IH. exists b, a', now, t, d, v.
           split; [reflexivity|]. split; [reflexivity|].
           intros H. apply Hn. rewrite in_app_iff. now left.
    + unfold Toast.dismiss. rewrite filter_In, negb_true_iff, Z.eqb_neq. split.
      * intros [H Hi]. apply IH in H as (b & a & now & t & d & v & -> & -> & Hn).
        exists b, (a ++ [Toast.Expire i]), now, t, d, v.
        split; [now rewrite <- app_assoc|]. split; [reflexivity|].
        rewrite in_app_iff. intros [H | [[= H] | []]]; [auto|].
        apply Hi. now rewrite H.
      * intros (b & a & now & t & d & v & H & -> & Hn).
        symmetry in H. apply snoc_split in H as [(_ & _ & [=]) | (a' & -> & ->)].
        split.
        -- apply IH. exists b, a', now, t, d, v.
           split; [reflexivity|]. split; [reflexivity|].
           intros H. apply Hn. rewrite in_app_iff. now left.
        -- cbn [Toast.make Toast.id]. intros ->. apply Hn.
           rewrite in_app_iff. right. now left.
Qed.

(** ** The login form *)

Section LoginFormFacts.

Variable toLowerCase : jsstring -> jsstring.

Lemma login_cases now email password w :
  (exists a tok,
     MOCK_USERS w !! toLowerCase email = Some a /\
     Account.password a = password /\
     generateJWT (account_payload a now) = Normal tok /\
     login toLowerCase now email password w
     = (set_session w (account_user a) tok,
        Normal {| success := true; message := js "Login successful" |})) \/
  ((forall a, MOCK_USERS w !! toLowerCase email = Some a ->
              Account.password a <> password) /\
   login toLowerCase now email password w = (w, Normal invalid_credentials)) \/
  (exists a e,
     MOCK_USERS w !! toLowerCase email = Some a /\
     Account.password a = password /\
     generateJWT (account_payload a now) = Throw e /\
     login toLowerCase now email password w = (w, Throw e)).
Proof.
  destruct (MOCK_USERS w !! toLowerCase email) as [a|] eqn:Ha.
  - destruct (decide (Account.password a = password)) as [<-|Hpw].
    + destruct (generateJWT (account_payload a now)) as [tok|e] eqn:Htok.
      * left. exists a, tok. repeat split; try assumption.
        now apply login_success.
      * right. right. exists a, e. repeat split; try assumption.
        now apply login_throws.
    + right. left. split.
      * now intros a' [= <-].
      * apply login_mismatch. rewrite Ha. now intros a' [= <-].
  - right. left. split; [discriminate|].
    apply login_mismatch. rewrite Ha. discriminate.
Qed.

End LoginFormFacts.

(** Submitting the login form ends in exactly one of three ways, and the
    loading flag is off at the end of each. When the account exists, the
    password matches and the token can be minted, the store holds the new
    session, the form shows the welcome toast, clears its error and
    navigates to [/]. When no account has the email and the password, the
    store is as before, the form shows the message of the store and
    neither a toast nor a navigation happens. When minting the token
    throws, the store is as before, the form shows the generic error with
    a destructive toast and does not navigate. *)
Theorem onSubmit_outcomes
    (toLowerCase : jsstring -> jsstring) (now now' : Z)
    (email password : jsstring) (w : World) (p : LoginForm.Page) :
  let w' := fst (LoginForm.onSubmit toLowerCase now now' email password w p) in
  let p' := snd (LoginForm.onSubmit toLowerCase now now' email password w p) in
  LoginForm.isLoading p' = false /\
  ((exists a tok,
      MOCK_USERS w !! toLowerCase email = Some a /\
      Account.password a = password /\
      generateJWT (account_payload a now) = Normal tok /\
      w' = set_session w (account_user a) tok /\
      LoginForm.pushed p' = LoginForm.pushed p ++ [js "/"] /\
      LoginForm.error p' = None /\
      LoginForm.toasts p'
      = LoginForm.toasts p
          ++ [Toast.make now' (Some (js "Login successful"))
                (Some (js "Welcome back!")) None]) \/
   ((forall a, MOCK_USERS w !! toLowerCase email = Some a ->
               Account.password a <> password) /\
    w' = w /\
    LoginForm.pushed p' = LoginForm.pushed p /\
    LoginForm.error p' = Some (js "Invalid email or password") /\
    LoginForm.toasts p' = LoginForm.toasts p) \/
   (exists a e,
      MOCK_USERS w !! toLowerCase email = Some a /\
      Account.password a = password /\
      generateJWT (account_payload a now) = Throw e /\
      w' = w /\
      LoginForm.pushed p' = LoginForm.pushed p /\
      LoginForm.error p' = Some (js "An unexpected error occurred. Please try again.") /\
      LoginForm.toasts p'
      = LoginForm.toasts p
          ++ [Toast.make now' (Some (js "Login failed"))
                (Some (js "An error occurred during login."))
                (Some (js "destructive"))])).
Proof.
  intros w' p'. subst w' p'. unfold LoginForm.onSubmit.
  destruct (login_cases toLowerCase now email password w)
    as [(a & tok & Ha & Hpw & Htok & ->) | [(Hno & ->) | (a & e & Ha & Hpw & Htok & ->)]];
    cbn; (split; [reflexivity|]).
  - left. exists a, tok. repeat split; assumption.
  - right. left. repeat split; assumption.
  - right. right. exists a, e. repeat split; assumption.
Qed.

(** ** The navigator of the React Native client *)

Section NavigatorFacts.

Variable toLowerCase : jsstring -> jsstring.

Lemma screens_session w u tok :
  AppNavigator.screens (set_session w u tok)
  = [AppNavigator.MainTabs; AppNavigator.MovieDetails].
Proof. reflexivity. Qed.

End NavigatorFacts.

(** The navigator goes by the flag of the store alone. After a successful
    login the application screens are shown, and they still are at any
    clock at which [checkAuth] rejects the token because it has expired;
    a failed login in between changes nothing; only [logout] brings the
    login and register screens back. *)
Theorem navigator_ignores_expiry
    (toLowerCase : jsstring -> jsstring) (w : World) (now t now2 : Z)
    (email password email2 password2 : jsstring) (r r2 : Result) :
  clock_in_range now ->
  snd (login toLowerCase now email password w) = Normal r ->
  success r = true ->
  (expiry_of now <= t)%Z ->
  snd (login toLowerCase now2 email2 password2
         (fst (login toLowerCase now email password w))) = Normal r2 ->
  success r2 = false ->
  let w1 := fst (login toLowerCase now email password w) in
  let w2 := fst (login toLowerCase now2 email2 password2 w1) in
  checkAuth t w1 = false /\
  AppNavigator.screens w1 = [AppNavigator.MainTabs; AppNavigator.MovieDetails] /\
  w2 = w1 /\
  AppNavigator.screens (logout w1) = [AppNavigator.Login; AppNavigator.Register].
Proof.
  intros Hnow H Hr Ht H2 Hr2 w1 w2. subst w2 w1.
  destruct (login_success_inv toLowerCase _ _ _ _ _ H Hr)
    as (a & tok & _ & _ & Htok & E).
  rewrite E in *. split; [|split; [|split]].
  - rewrite (checkAuth_session toLowerCase w a tok now t Hnow Htok). lia.
  - reflexivity.
  - destruct (login_cases toLowerCase now2 email2 password2
                (set_session w (account_user a) tok))
      as [(a2 & tok2 & _ & _ & _ & E2) | [(_ & E2) | (a2 & e & _ & _ & _ & E2)]];
      rewrite E2 in *; cbn [snd fst] in *.
    + injection H2 as <-. discriminate Hr2.
    + reflexivity.
    + reflexivity.
  - reflexivity.
Qed.

Lemma navigator_ignores_expiry_witness :
  checkAuth (1700000000123 + 86399877) demo_session = false /\
  AppNavigator.screens demo_session
  = [AppNavigator.MainTabs; AppNavigator.MovieDetails] /\
  fst (login ascii_toLowerCase 1700000000500 (js "demo@example.com") (js "wrong")
         demo_session) = demo_session /\
  AppNavigator.screens (logout demo_session)
  = [AppNavigator.Login; AppNavigator.Register].
Proof.
  assert (Hc : clock_in_range 1700000000123) by (vm_compute; split; discriminate).
  assert (Ht : (expiry_of 1700000000123 <= 1700000000123 + 86399877)%Z)
    by (vm_compute; discriminate).
  exact (navigator_ignores_expiry ascii_toLowerCase initial_world 1700000000123
           (1700000000123 + 86399877) 1700000000500
           (js "demo@example.com") (js "demo123") (js "demo@example.com") (js "wrong")
           {| success := true; message := js "Login successful" |}
           invalid_credentials Hc ltac:(vm_compute; reflexivity) eq_refl Ht
           ltac:(vm_compute; reflexivity) eq_refl).
Defined.

(** ** The carousel *)

Lemma act_in_range st a i :
  MovieCarousel.currentIndex st = MovieCarousel.At i ->
  (0 <= i < Z.of_nat (length (MovieCarousel.featuredMovies st)))%Z ->
  MovieCarousel.act st a
  = {| MovieCarousel.featuredMovies := MovieCarousel.featuredMovies st;
       MovieCarousel.currentIndex :=
         MovieCarousel.At
           ((i + MovieCarousel.offset [a])
              mod Z.of_nat (length (MovieCarousel.featuredMovies st)));
       MovieCarousel.loading := MovieCarousel.loading st |}.
Proof.
  intros Hi Hr. set (n := Z.of_nat _) in *.
  destruct a; cbn [MovieCarousel.act MovieCarousel.offset fold_right];
    unfold MovieCarousel.nextSlide, MovieCarousel.prevSlide; fold n;
    rewrite Hi; cbn [MovieCarousel.shift];
    (destruct (Z.eqb_spec n 0) as [E|_]; [lia|]); do 2 f_equal.
  - rewrite Z.rem_mod_nonneg by lia. f_equal; lia.
  - rewrite Z.rem_mod_nonneg by lia.
    replace (i + (-1 + n))%Z with (i + (-1 + 0) + 1 * n)%Z by lia.
    now rewrite Z.mod_add by lia.
Qed.

Lemma offset_cons a acts :
  MovieCarousel.offset (a :: acts)
  = (MovieCarousel.offset [a] + MovieCarousel.offset acts)%Z.
Proof. destruct a; unfold MovieCarousel.offset; cbn [fold_right]; lia. Qed.

Lemma run_in_range acts : forall st i,
  MovieCarousel.currentIndex st = MovieCarousel.At i ->
  (0 <= i < Z.of_nat (length (MovieCarousel.featuredMovies st)))%Z ->
  MovieCarousel.run acts st
  = {| MovieCarousel.featuredMovies := MovieCarousel.featuredMovies st;
       MovieCarousel.currentIndex :=
         MovieCarousel.At
           ((i + MovieCarousel.offset acts)
              mod Z.of_nat (length (MovieCarousel.featuredMovies st)));
       MovieCarousel.loading := MovieCarousel.loading st |}.
Proof.
  induction acts as [|a acts IH]; intros st i Hi Hr.
  - cbn [MovieCarousel.run fold_left MovieCarousel.offset fold_right].
    rewrite Z.add_0_r, Z.mod_small by lia. rewrite <- Hi. now destruct st.
  - change (MovieCarousel.run (a :: acts) st)
      with (MovieCarousel.run acts (MovieCarousel.act st a)).
    rewrite (act_in_range st a i Hi Hr).
    set (n := Z.of_nat _) in *.
    rewrite (IH _ ((i + MovieCarousel.offset [a]) mod n)%Z); cbn [MovieCarousel.featuredMovies MovieCarousel.currentIndex
                      MovieCarousel.loading]; fold n.
    + do 2 f_equal.
      rewrite Z.add_mod_idemp_l by lia. f_equal.
      rewrite (offset_cons a acts). lia.
    + reflexivity.
    + apply Z.mod_pos_bound. lia.
Qed.

(** While the carousel shows a slide, the buttons and the timer move it
    around a cycle: after any sequence of steps forward and backward the
    index is the start plus the steps forward less the steps backward,
    modulo the number of movies; it is never out of range, the list of
    movies is untouched, and the component renders the movie at that
    index. *)
Theorem carousel_cycles
    (st : MovieCarousel.State) (acts : list MovieCarousel.Action) (i : Z) :
  MovieCarousel.loading st = false ->
  MovieCarousel.currentIndex st = MovieCarousel.At i ->
  (0 <= i < Z.of_nat (length (MovieCarousel.featuredMovies st)))%Z ->
  let n := Z.of_nat (length (MovieCarousel.featuredMovies st)) in
  let j := ((i + MovieCarousel.offset acts) mod n)%Z in
  let st' := MovieCarousel.run acts st in
  MovieCarousel.currentIndex st' = MovieCarousel.At j /\
  (0 <= j < n)%Z /\
  MovieCarousel.featuredMovies st' = MovieCarousel.featuredMovies st /\
  exists m,
    nth_error (MovieCarousel.featuredMovies st) (Z.to_nat j) = Some m /\
    MovieCarousel.render st' = Normal (MovieCarousel.Slide m).
Proof.
  intros Hl Hi Hr n j st'. subst st'.
  rewrite (run_in_range acts st i Hi Hr). fold n j.
  assert (Hj : (0 <= j < n)%Z) by (apply Z.mod_pos_bound; lia).
  cbn [MovieCarousel.currentIndex MovieCarousel.featuredMovies].
  repeat split; try lia.
  destruct (nth_error (MovieCarousel.featuredMovies st) (Z.to_nat j)) as [m|] eqn:E.
  - exists m. split; [reflexivity|].
    unfold MovieCarousel.render, MovieCarousel.current.
    cbn [MovieCarousel.currentIndex MovieCarousel.featuredMovies MovieCarousel.loading].
    rewrite Hl. destruct (MovieCarousel.featuredMovies st) as [|m0 ms] eqn:Ef.
    + cbn in n. lia.
    + destruct (Z.leb_spec 0 j); [|lia]. now rewrite E.
  - apply nth_error_None in E. lia.
Qed.

Lemma carousel_cycles_witness :
  MovieCarousel.render
    (MovieCarousel.run
       [MovieCarousel.Next; MovieCarousel.Next; MovieCarousel.Prev; MovieCarousel.Next]
       {| MovieCarousel.featuredMovies :=
            [MovieCarousel.listed "The Avengers" "tt0848228";
             MovieCarousel.listed "Star Wars" "tt0076759";
             MovieCarousel.listed "Jurassic Park" "tt0107290"];
          MovieCarousel.currentIndex := MovieCarousel.At 2;
          MovieCarousel.loading := false |})
  = Normal (MovieCarousel.Slide (MovieCarousel.listed "Star Wars" "tt0076759")).
Proof.
  destruct (carousel_cycles
              {| MovieCarousel.featuredMovies :=
                   [MovieCarousel.listed "The Avengers" "tt0848228";
                    MovieCarousel.listed "Star Wars" "tt0076759";
                    MovieCarousel.listed "Jurassic Park" "tt0107290"];
                 MovieCarousel.currentIndex := MovieCarousel.At 2;
                 MovieCarousel.loading := false |}
              [MovieCarousel.Next; MovieCarousel.Next; MovieCarousel.Prev;
               MovieCarousel.Next]
              2 eq_refl eq_refl ltac:(cbn; lia))
    as (_ & _ & _ & m & Hm & Hrender).
  rewrite Hrender. vm_compute in Hm. injection Hm as <-. reflexivity.
Defined.

Lemma act_empty st a :
  MovieCarousel.featuredMovies st = [] ->
  MovieCarousel.currentIndex (MovieCarousel.act st a) = MovieCarousel.NotANumber.
Proof.
  intros E. destruct a; cbn; rewrite E; now destruct (MovieCarousel.currentIndex st).
Qed.

Lemma run_not_a_number acts : forall st,
  MovieCarousel.currentIndex st = MovieCarousel.NotANumber ->
  MovieCarousel.run acts st
  = {| MovieCarousel.featuredMovies := MovieCarousel.featuredMovies st;
       MovieCarousel.currentIndex := MovieCarousel.NotANumber;
       MovieCarousel.loading := MovieCarousel.loading st |}.
Proof.
  induction acts as [|a acts IH]; intros st E.
  - cbn. rewrite <- E. now destruct st.
  - change (MovieCarousel.run (a :: acts) st)
      with (MovieCarousel.run acts (MovieCarousel.act st a)).
    rewrite IH; destruct a; cbn; now rewrite ?E.
Qed.

Lemma fetchFeaturedMovies_state net log st :
  MovieCarousel.currentIndex (snd (MovieCarousel.fetchFeaturedMovies net log st))
  = MovieCarousel.currentIndex st /\
  MovieCarousel.loading (snd (MovieCarousel.fetchFeaturedMovies net log st)) = false.
Proof.
  unfold MovieCarousel.fetchFeaturedMovies.
  destruct (MovieCarousel.search_all _ _ _) as [log' [rs|e]]; now cbn.
Qed.

(** When the timer ticks before any movie has arrived, the remainder by
    the length zero makes the index [NaN]. No later action brings it back:
    once the fetch has delivered movies, every render of the carousel
    throws TypeError, whatever buttons were pressed and however often the
    timer has ticked; when no movie arrives, nothing is rendered. *)
Theorem carousel_tick_while_empty
    (st : MovieCarousel.State) (a : MovieCarousel.Action)
    (acts1 acts2 : list MovieCarousel.Action)
    (net : Request -> Web.FetchResult MovieCarousel.SearchResult)
    (log : list Request) :
  MovieCarousel.featuredMovies st = [] ->
  let st1 := MovieCarousel.run (a :: acts1) st in
  let st2 := snd (MovieCarousel.fetchFeaturedMovies net log st1) in
  let st3 := MovieCarousel.run acts2 st2 in
  MovieCarousel.currentIndex st3 = MovieCarousel.NotANumber /\
  MovieCarousel.featuredMovies st3 = MovieCarousel.featuredMovies st2 /\
  (MovieCarousel.featuredMovies st2 <> [] ->
   MovieCarousel.render st3 = Throw TypeError) /\
  (MovieCarousel.featuredMovies st2 = [] ->
   MovieCarousel.render st3 = Normal MovieCarousel.Nothing).
Proof.
  intros E st1 st2 st3.
  assert (E1 : MovieCarousel.currentIndex st1 = MovieCarousel.NotANumber).
  { unfold st1.
    change (MovieCarousel.run (a :: acts1) st)
      with (MovieCarousel.run acts1 (MovieCarousel.act st a)).
    now rewrite run_not_a_number by now apply act_empty. }
  destruct (fetchFeaturedMovies_state net log st1) as [E2 L2]. fold st2 in E2, L2.
  clearbody st2 st1.
  rewrite E1 in E2.
  assert (E3 : st3 = {| MovieCarousel.featuredMovies := MovieCarousel.featuredMovies st2;
                        MovieCarousel.currentIndex := MovieCarousel.NotANumber;
                        MovieCarousel.loading := false |}).
  { unfold st3. now rewrite run_not_a_number, L2 by assumption. }
  rewrite E3. cbn [MovieCarousel.currentIndex MovieCarousel.featuredMovies].
  repeat split.
  - intros Hne. unfold MovieCarousel.render, MovieCarousel.current.
    cbn [MovieCarousel.loading MovieCarousel.featuredMovies MovieCarousel.currentIndex].
    now destruct (MovieCarousel.featuredMovies st2).
  - intros ->. reflexivity.
Qed.

Lemma carousel_tick_while_empty_witness :
  MovieCarousel.render
    (snd (MovieCarousel.fetchFeaturedMovies MovieCarousel.one_hit []
            (MovieCarousel.nextSlide MovieCarousel.initial)))
  = Throw TypeError /\
  MovieCarousel.render
    (snd (MovieCarousel.fetchFeaturedMovies MovieCarousel.one_hit []
            MovieCarousel.initial))
  = Normal (MovieCarousel.Slide
              {| Movie.Title := js "Avengers"; Movie.Year := js "2012";
                 Movie.imdbID := js "tt0848228"; Movie.Type_ := js "movie";
                 Movie.Poster := Some (js "https://img.example/p.jpg") |}).
Proof.
  split; [|vm_compute; reflexivity].
  destruct (carousel_tick_while_empty MovieCarousel.initial MovieCarousel.Next [] []
              MovieCarousel.one_hit [] eq_refl) as (_ & _ & H & _).
  apply H. vm_compute. discriminate.
Defined.

Lemma search_all_spec net titles : forall log,
  fst (MovieCarousel.search_all net titles log)
  = log ++ List.map MovieCarousel.request titles /\
  ((exists rs,
      snd (MovieCarousel.search_all net titles log) = Normal rs /\
      List.Forall2 (fun t r => net (MovieCarousel.request t)
                               = Web.Response true (Normal r)) titles rs) \/
   (exists e t,
      snd (MovieCarousel.search_all net titles log) = Throw e /\
      In t titles /\
      forall r, net (MovieCarousel.request t) <> Web.Response true (Normal r))).
Proof.
  induction titles as [|title rest IH]; intros log.
  - cbn. rewrite app_nil_r. split; [reflexivity|]. left. exists []. now split.
  - cbn [MovieCarousel.search_all Web.searchMovies or_empty].
    fold (MovieCarousel.request title).
    destruct (IH (log ++ [MovieCarousel.request title])) as [Hlog Hres].
    destruct (MovieCarousel.search_all net rest (log ++ [MovieCarousel.request title]))
      as [log2 rs] eqn:E. cbn [fst snd] in *. split.
    + rewrite Hlog, <- app_assoc. reflexivity.
    + destruct (net (MovieCarousel.request title)) as [|[|] [r|e]] eqn:En.
      * right. exists TypeError, title. repeat split; [now left|].
        intros r. rewrite En. discriminate.
      * destruct Hres as [(rs' & -> & HF) | (e & t & -> & Hin & Hn)].
        -- left. exists (r :: rs'). split; [reflexivity|]. now constructor.
        -- right. exists e, t. repeat split; [now right | assumption].
      * right. exists e, title. repeat split; [now left|].
        intros r. rewrite En. discriminate.
      * right. eexists _, title. repeat split; [now left|].
        intros r'. rewrite En. discriminate.
      * right. eexists _, title. repeat split; [now left|].
        intros r'. rewrite En. discriminate.
Qed.

Lemma in_firstn {A} (n : nat) (l : list A) x : In x (firstn n l) -> In x l.
Proof.
  intros H. rewrite <- (firstn_skipn n l). apply in_or_app. now left.
Qed.

Lemma has_poster_spec m :
  MovieCarousel.has_poster m = true ->
  exists p, Movie.Poster m = Some p /\ p <> [] /\ p <> js "N/A".
Proof.
  unfold MovieCarousel.has_poster.
  destruct (Movie.Poster m) as [[|c p]|]; try discriminate.
  rewrite negb_true_iff, bool_decide_eq_false. intros H.
  exists (c :: p). repeat split; [discriminate | assumption].
Qed.

Lemma featured_spec rs :
  (length (MovieCarousel.featured rs) <= 5)%nat /\
  List.Forall
    (fun m => (exists p, Movie.Poster m = Some p /\ p <> [] /\ p <> js "N/A") /\
              exists r ms, In r rs /\ MovieCarousel.Search_ r = Some ms /\ In m ms)
    (MovieCarousel.featured rs).
Proof.
  unfold MovieCarousel.featured. split.
  - rewrite length_firstn. lia.
  - apply List.Forall_forall. intros m Hm.
    apply in_firstn, filter_In in Hm as [Hm Hp]. split.
    + now apply has_poster_spec.
    + apply in_flat_map in Hm as (r & Hr & Hm).
      destruct (MovieCarousel.Search_ r) as [ms|] eqn:E; [|destruct Hm].
      now exists r, ms.
Qed.

(** Loading the featured movies issues the five searches, one for each
    title and in their order, whether or not any of them fails; it leaves
    the slide index as it is and always ends with the spinner off. When
    all five responses arrive, the carousel holds at most five movies,
    each with a poster and each from one of the responses; when any search
    fails, the carousel keeps the movies it had. *)
Theorem fetchFeaturedMovies_outcomes
    (net : Request -> Web.FetchResult MovieCarousel.SearchResult)
    (log : list Request) (st : MovieCarousel.State) :
  let log' := fst (MovieCarousel.fetchFeaturedMovies net log st) in
  let st' := snd (MovieCarousel.fetchFeaturedMovies net log st) in
  log' = log ++ List.map MovieCarousel.request MovieCarousel.featuredTitles /\
  length log' = (length log + 5)%nat /\
  MovieCarousel.loading st' = false /\
  MovieCarousel.currentIndex st' = MovieCarousel.currentIndex st /\
  ((exists rs,
      List.Forall2 (fun t r => net (MovieCarousel.request t)
                               = Web.Response true (Normal r))
        MovieCarousel.featuredTitles rs /\
      MovieCarousel.featuredMovies st' = MovieCarousel.featured rs /\
      (length (MovieCarousel.featuredMovies st') <= 5)%nat /\
      List.Forall
        (fun m => (exists p, Movie.Poster m = Some p /\ p <> [] /\ p <> js "N/A") /\
                  exists r ms, In r rs /\ MovieCarousel.Search_ r = Some ms /\ In m ms)
        (MovieCarousel.featuredMovies st')) \/
   (exists t,
      In t MovieCarousel.featuredTitles /\
      (forall r, net (MovieCarousel.request t) <> Web.Response true (Normal r)) /\
      MovieCarousel.featuredMovies st' = MovieCarousel.featuredMovies st)).
Proof.
  intros log' st'. subst log' st'.
  destruct (fetchFeaturedMovies_state net log st) as [Hi Hl].
  unfold MovieCarousel.fetchFeaturedMovies in *.
  destruct (search_all_spec net MovieCarousel.featuredTitles log) as [Hlog Hres].
  destruct (MovieCarousel.search_all net MovieCarousel.featuredTitles log)
    as [log2 res] eqn:E. cbn [fst snd] in *.
  split; [assumption|]. split; [rewrite Hlog, length_app; reflexivity|].
  split; [assumption|]. split; [assumption|].
  destruct Hres as [(rs & -> & HF) | (e & t & -> & Hin & Hn)].
  - left. exists rs. cbn [MovieCarousel.featuredMovies].
    destruct (featured_spec rs) as [H5 Hall]. auto.
  - right. exists t. auto.
Qed.

(** ** Histories of the cached API client *)

Section CacheHistoryFacts.

Context {Data : Type}.

Lemma api_call_cases (env : Native.Env Data) (c : ApiCall Data) :
  (exists entry,
     Native.storage env !! cache_key c = Some entry /\
     api_call env c = (env, Normal (Native.data entry))) \/
  (exists d,
     answer c = Normal d /\
     api_call env c
     = (stored (cache_key c) d (write_clock c) (api_request c) env, Normal d)) \/
  (exists e msg,
     answer c = Throw e /\
     api_call env c = (failed (api_request c) env, Throw (Error msg))).
Proof.
  destruct c as [net now now' term type year | net now now' imdbID];
    cbn [api_call cache_key answer write_clock api_request];
    unfold Native.searchMovies, Native.getMovieDetails, Native.cached.
  - destruct (Native.storage env !! Native.search_key term type year) as [entry|] eqn:E.
    + destruct (_ <? _)%Z.
      * left. now exists entry.
      * right. unfold Native.fetch_and_store.
        destruct (net _) as [d|e] eqn:En; [left; exists d; split; reflexivity | right; exists e; eexists; split; reflexivity].
    + right. unfold Native.fetch_and_store.
      destruct (net _) as [d|e] eqn:En; [left; exists d; split; reflexivity | right; exists e; eexists; split; reflexivity].
  - destruct (Native.storage env !! Native.details_key imdbID) as [entry|] eqn:E.
    + destruct (_ <? _)%Z.
      * left. now exists entry.
      * right. unfold Native.fetch_and_store.
        destruct (net _) as [d|e] eqn:En; [left; exists d; split; reflexivity | right; exists e; eexists; split; reflexivity].
    + right. unfold Native.fetch_and_store.
      destruct (net _) as [d|e] eqn:En; [left; exists d; split; reflexivity | right; exists e; eexists; split; reflexivity].
Qed.

Lemma api_run_snoc (calls : list (ApiCall Data)) c env :
  api_run (calls ++ [c]) env = fst (api_call (api_run calls env) c).
Proof. unfold api_run. now rewrite fold_left_app. Qed.

Lemma api_call_storage (env : Native.Env Data) c key entry :
  Native.storage (fst (api_call env c)) !! key = Some entry ->
  Native.storage env !! key = Some entry \/ written_by c key entry.
Proof.
  destruct (api_call_cases env c)
    as [(en & _ & ->) | [(d & Hd & ->) | (e & msg & _ & ->)]];
    cbn [fst stored failed Native.storage]; auto.
  destruct (decide (cache_key c = key)) as [<-|Hne].
  - rewrite lookup_insert_eq. intros [= <-]. right. now split.
  - rewrite lookup_insert_ne by assumption. auto.
Qed.

Lemma api_run_storage (calls : list (ApiCall Data)) : forall env key entry,
  Native.storage (api_run calls env) !! key = Some entry ->
  Native.storage env !! key = Some entry \/
  exists c, In c calls /\ written_by c key entry.
Proof.
  induction calls as [|c calls IH] using List.rev_ind; intros env key entry H.
  - now left.
  - rewrite api_run_snoc in H. apply api_call_storage in H as [H | H].
    + apply IH in H as [H | (c' & Hin & H)]; [now left|].
      right. exists c'. split; [|assumption]. apply in_or_app. now left.
    + right. exists c. split; [|assumption]. apply in_or_app. right. now left.
Qed.

End CacheHistoryFacts.

(** The cache only holds, and the client only returns, what the network
    answered. After any sequence of calls of [searchMovies] and
    [getMovieDetails], every entry of the storage was there at the start
    or was written by one of the calls: it lies under the cache key of
    that call and holds the response to the GET of that call, with the
    clock of its write. Whatever a further call returns is the data of an
    entry from the start or the response to a call with the same cache
    key, this one included. *)
Theorem cache_provenance
    {Data : Type} (calls : list (ApiCall Data)) (env : Native.Env Data) :
  (forall key entry,
     Native.storage (api_run calls env) !! key = Some entry ->
     Native.storage env !! key = Some entry \/
     exists c, In c calls /\ written_by c key entry) /\
  (forall c d,
     snd (api_call (api_run calls env) c) = Normal d ->
     (exists entry, Native.storage env !! cache_key c = Some entry /\
                    Native.data entry = d) \/
     (exists c', In c' (calls ++ [c]) /\ cache_key c' = cache_key c /\
                 answer c' = Normal d)).
Proof.
  split; [apply api_run_storage|].
  intros c d H.
  destruct (api_call_cases (api_run calls env) c)
    as [(en & Hen & E) | [(d' & Hd & E) | (e & msg & _ & E)]];
    rewrite E in H; cbn [snd] in H; [| |discriminate H]; injection H as <-.
  - apply api_run_storage in Hen as [Hen | (c' & Hin & Hk & Ha & _)].
    + left. now exists en.
    + right. exists c'. split; [apply in_or_app; now left|]. now split.
  - right. exists c. split; [apply in_or_app; right; now left|]. now split.
Qed.

Section CacheMonotone.

Context {Data : Type}.

Lemma api_call_keeps (env : Native.Env Data) c key :
  is_Some (Native.storage env !! key) ->
  is_Some (Native.storage (fst (api_call env c)) !! key).
Proof.
  intros H. destruct (api_call_cases env c)
    as [(en & _ & ->) | [(d & Hd & ->) | (e & msg & _ & ->)]];
    cbn [fst stored failed Native.storage]; auto.
  destruct (decide (cache_key c = key)) as [<-|Hne].
  - rewrite lookup_insert_eq. eauto.
  - now rewrite lookup_insert_ne.
Qed.

Lemma api_call_requests (env : Native.Env Data) c :
  Native.requests (fst (api_call env c)) = Native.requests env \/
  Native.requests (fst (api_call env c)) = Native.requests env ++ [api_request c].
Proof.
  destruct (api_call_cases env c)
    as [(en & _ & ->) | [(d & Hd & ->) | (e & msg & _ & ->)]];
    cbn [fst stored failed Native.requests]; auto.
Qed.

End CacheMonotone.

(** The client never evicts: over any sequence of calls, a key that has an
    entry keeps having one, so the storage never shrinks; and the log of
    GETs only grows at its end, by at most one GET for each call. *)
Theorem cache_never_evicts
    {Data : Type} (calls : list (ApiCall Data)) (env : Native.Env Data) :
  (forall key, is_Some (Native.storage env !! key) ->
               is_Some (Native.storage (api_run calls env) !! key)) /\
  exists gets,
    Native.requests (api_run calls env) = Native.requests env ++ gets /\
    (length gets <= length calls)%nat.
Proof.
  induction calls as [|c calls [IH1 (gets & IH2 & IH3)]] using List.rev_ind.
  - split; [auto|]. exists []. now rewrite app_nil_r.
  - rewrite api_run_snoc. split.
    + intros key H. now apply api_call_keeps, IH1.
    + destruct (api_call_requests (api_run calls env) c) as [-> | ->]; rewrite IH2.
      * exists gets. split; [reflexivity|]. rewrite length_app. lia.
      * exists (gets ++ [api_request c]). rewrite app_assoc. split; [reflexivity|].
        rewrite !length_app. cbn. lia.
Qed.

(** A call touches no entry but its own: every other key has the entry it
    had, after a hit, a successful fetch or a failed one. The keys of
    [searchMovies] and of [getMovieDetails] never coincide, and two movie
    ids share a key only when they are equal: a details lookup neither
    reads nor replaces a search result or the details of another movie. *)
Theorem cache_entries_independent
    {Data : Type} (env : Native.Env Data) (c : ApiCall Data) :
  (forall key, key <> cache_key c ->
     Native.storage (fst (api_call env c)) !! key = Native.storage env !! key) /\
  (forall term type year imdbID,
     Native.search_key term type year <> Native.details_key imdbID) /\
  (forall imdbID imdbID',
     Native.details_key imdbID = Native.details_key imdbID' -> imdbID = imdbID').
Proof.
  split; [|split].
  - intros key Hne. destruct (api_call_cases env c)
      as [(en & _ & ->) | [(d & Hd & ->) | (e & msg & _ & ->)]];
      cbn [fst stored failed Native.storage]; auto.
    now rewrite lookup_insert_ne by congruence.
  - intros term type year imdbID H. discriminate H.
  - intros i i' H. unfold Native.details_key in H. now apply app_inv_head in H.
Qed.
